(** * ExpandOps: the arithmetic expansion patterns of
    [mlir/lib/Dialect/Arithmetic/Transforms/ExpandOps.cpp]

    The C++ file is a set of rewrite patterns: each [matchAndRewrite] asks a
    [PatternRewriter] to create lower-level operations and names the value
    that replaces the matched operation.  The development below embeds

    - the IR the patterns build (types, attributes, values, operations),
    - the rewriter as a small state monad that records the created
      operations and the replacement,
    - the patterns themselves, statement by statement,
    - the registration function and the pass,
    - an evaluator for the operations the patterns create,

    and then states and proves what the expansions compute. *)

From Stdlib Require Import ZArith List Bool Lia QArith Qround SpecFloat.
Import ListNotations.
Local Open Scope Z_scope.

(* ================================================================== *)
(** * Types *)

(** The float formats of [llvm::fltSemantics] that MLIR float types use. *)
Inductive fltSemantics : Type :=
| IEEEhalf | BFloat | IEEEsingle | IEEEdouble | x87DoubleExtended | IEEEquad.

(** Element types: a machine integer of some bit width or a float type. *)
Inductive ScalarType : Type :=
| IntegerType (width : Z)
| FloatType (semantics : fltSemantics).

(** An MLIR type as the patterns see it: a scalar or a vector of scalars. *)
Inductive Ty : Type :=
| Scalar (t : ScalarType)
| VectorType (shape : list nat) (elementType : ScalarType).

Definition getElementTypeOrSelf (t : Ty) : ScalarType :=
  match t with
  | Scalar s => s
  | VectorType _ e => e
  end.

(** [type.dyn_cast<VectorType>()]: the type itself when it is a vector. *)
Definition dyn_cast_VectorType (t : Ty) : option Ty :=
  match t with
  | VectorType _ _ => Some t
  | Scalar _ => None
  end.

(** [type.cast<FloatType>()]: asserts that the type is a float type. *)
Definition cast_FloatType (t : ScalarType) : option fltSemantics :=
  match t with
  | FloatType s => Some s
  | IntegerType _ => None
  end.

(** The type of a comparison's result: [i1] in the shape of the operands. *)
Definition getI1SameShape (t : Ty) : Ty :=
  match t with
  | Scalar _ => Scalar (IntegerType 1)
  | VectorType shape _ => VectorType shape (IntegerType 1)
  end.

Definition getNumElements (shape : list nat) : nat :=
  fold_right Nat.mul 1%nat shape.

Definition fltSemantics_eqb (x y : fltSemantics) : bool :=
  match x, y with
  | IEEEhalf, IEEEhalf | BFloat, BFloat | IEEEsingle, IEEEsingle
  | IEEEdouble, IEEEdouble | x87DoubleExtended, x87DoubleExtended
  | IEEEquad, IEEEquad => true
  | _, _ => false
  end.

Definition ScalarType_eqb (x y : ScalarType) : bool :=
  match x, y with
  | IntegerType a, IntegerType b => Z.eqb a b
  | FloatType a, FloatType b => fltSemantics_eqb a b
  | _, _ => false
  end.

Definition Ty_eqb (x y : Ty) : bool :=
  match x, y with
  | Scalar a, Scalar b => ScalarType_eqb a b
  | VectorType s a, VectorType t b =>
      (if list_eq_dec Nat.eq_dec s t then true else false) && ScalarType_eqb a b
  | _, _ => false
  end.

(* ================================================================== *)
(** * Floating-point values *)

(** The datum of an [APFloat], by category ([fcZero], [fcInfinity], [fcNaN],
    [fcNormal]).  A NaN keeps its sign, whether it is quiet, and a payload. *)
Inductive fltData : Type :=
| fcZero (sign : bool)
| fcInfinity (sign : bool)
| fcNaN (sign : bool) (quiet : bool) (payload : N)
| fcNormal (sign : bool) (significand : positive) (exponent : Z).

Record APFloat : Type := mkAPFloat {
  getSemantics : fltSemantics;
  data : fltData
}.

(** Modelled from the spec: [APFloat::getQNaN] is an LLVM function outside
    this file; it returns "the non-signaling NaN encoding" of the given
    format, positive and with an empty payload. *)
Definition getQNaN (sem : fltSemantics) : APFloat :=
  mkAPFloat sem (fcNaN false true 0%N).

Definition isNaN (f : APFloat) : bool :=
  match data f with
  | fcNaN _ _ _ => true
  | _ => false
  end.

Definition isQuietNaN (f : APFloat) : bool :=
  match data f with
  | fcNaN _ q _ => q
  | _ => false
  end.

(** The IEEE-754 datum, forgetting what distinguishes one NaN from another. *)
Definition to_spec_float (f : APFloat) : spec_float :=
  match data f with
  | fcZero s => S754_zero s
  | fcInfinity s => S754_infinity s
  | fcNaN _ _ _ => S754_nan
  | fcNormal s m e => S754_finite s m e
  end.

(** IEEE-754 comparison: [None] when the operands are unordered. *)
Definition compareAPFloat (x y : APFloat) : option comparison :=
  SFcompare (to_spec_float x) (to_spec_float y).

(* ================================================================== *)
(** * Attributes, predicates, operation names *)

Inductive Attribute : Type :=
| IntegerAttr (type : Ty) (value : Z)
| FloatAttr (type : Ty) (value : APFloat).

Definition getAttrType (a : Attribute) : Ty :=
  match a with
  | IntegerAttr t _ => t
  | FloatAttr t _ => t
  end.

(** Modelled from the spec: [Builder::getIntegerAttr] lives outside this
    file; it is the "integer constant of (scalar or vector of) integer type"
    of the builder interface. *)
Definition getIntegerAttr (type : Ty) (value : Z) : Attribute :=
  IntegerAttr type value.

Module CmpIPredicate.
Inductive t : Type :=
| eq | ne | slt | sle | sgt | sge | ult | ule | ugt | uge.
End CmpIPredicate.

Module CmpFPredicate.
Inductive t : Type :=
| AlwaysFalse | OEQ | OGT | OGE | OLT | OLE | ONE | ORD
| UEQ | UGT | UGE | ULT | ULE | UNE | UNO | AlwaysTrue.
End CmpFPredicate.

(** The two-operand operations of the arithmetic dialect, by mnemonic. *)
Inductive BinaryOpName : Type :=
| addi | subi | muli | divsi | divui | remsi | remui | andi | ori | xori
| ceildivsi | ceildivui | floordivsi
| maxsi | maxui | minsi | minui
| addf | subf | mulf | divf | maxf | minf.

Inductive Dialect : Type := ArithmeticDialect | StandardOpsDialect.

Inductive OperationName : Type :=
| arith_constant
| arith_cmpi
| arith_cmpf
| arith (n : BinaryOpName)
| std_select
| std_splat.

Definition getDialect (n : OperationName) : Dialect :=
  match n with
  | std_select | std_splat => StandardOpsDialect
  | _ => ArithmeticDialect
  end.

Definition BinaryOpName_eqb (x y : BinaryOpName) : bool :=
  match x, y with
  | addi, addi | subi, subi | muli, muli | divsi, divsi | divui, divui
  | remsi, remsi | remui, remui | andi, andi | ori, ori | xori, xori
  | ceildivsi, ceildivsi | ceildivui, ceildivui | floordivsi, floordivsi
  | maxsi, maxsi | maxui, maxui | minsi, minsi | minui, minui
  | addf, addf | subf, subf | mulf, mulf | divf, divf
  | maxf, maxf | minf, minf => true
  | _, _ => false
  end.

Definition OperationName_eqb (x y : OperationName) : bool :=
  match x, y with
  | arith_constant, arith_constant | arith_cmpi, arith_cmpi
  | arith_cmpf, arith_cmpf | std_select, std_select
  | std_splat, std_splat => true
  | arith a, arith b => BinaryOpName_eqb a b
  | _, _ => false
  end.

Definition Dialect_eqb (x y : Dialect) : bool :=
  match x, y with
  | ArithmeticDialect, ArithmeticDialect
  | StandardOpsDialect, StandardOpsDialect => true
  | _, _ => false
  end.

(* ================================================================== *)
(** * Values and operations *)

(** An SSA value is a block argument or the result of its defining
    operation; an operation holds its operands.  A value used twice is
    written twice: the operations are free of side effects, so the tree
    computes what the graph does.  Locations are debugging metadata (every
    created operation takes the location of the matched one) and are left
    out. *)
Inductive Value : Type :=
| BlockArgument (argNumber : nat) (type : Ty)
| OpResult (owner : Operation)
with Operation : Type :=
| ConstantOp (value : Attribute)
| CmpIOp (predicate : CmpIPredicate.t) (lhs rhs : Value)
| CmpFOp (predicate : CmpFPredicate.t) (lhs rhs : Value)
| SelectOp (condition trueValue falseValue : Value)
| SplatOp (type : Ty) (input : Value)
| BinaryOp (name : BinaryOpName) (lhs rhs : Value).

Abbreviation AddIOp := (BinaryOp addi).
Abbreviation SubIOp := (BinaryOp subi).
Abbreviation MulIOp := (BinaryOp muli).
Abbreviation DivSIOp := (BinaryOp divsi).
Abbreviation DivUIOp := (BinaryOp divui).
Abbreviation AndIOp := (BinaryOp andi).
Abbreviation OrIOp := (BinaryOp ori).
Abbreviation CeilDivSIOp := (BinaryOp ceildivsi).
Abbreviation CeilDivUIOp := (BinaryOp ceildivui).
Abbreviation FloorDivSIOp := (BinaryOp floordivsi).
Abbreviation MaxFOp := (BinaryOp maxf).
Abbreviation MinFOp := (BinaryOp minf).
Abbreviation MaxSIOp := (BinaryOp maxsi).
Abbreviation MaxUIOp := (BinaryOp maxui).
Abbreviation MinSIOp := (BinaryOp minsi).
Abbreviation MinUIOp := (BinaryOp minui).

(** [arith::ConstantFloatOp] is the constant operation built from a float
    value and its float type. *)
Definition ConstantFloatOp (value : APFloat) (type : fltSemantics) : Operation :=
  ConstantOp (FloatAttr (Scalar (FloatType type)) value).

Definition getName (op : Operation) : OperationName :=
  match op with
  | ConstantOp _ => arith_constant
  | CmpIOp _ _ _ => arith_cmpi
  | CmpFOp _ _ _ => arith_cmpf
  | SelectOp _ _ _ => std_select
  | SplatOp _ _ => std_splat
  | BinaryOp n _ _ => arith n
  end.

(** The type of a value; an operation's result type is inferred the way the
    operations' builders do (same as the operands, [i1] for comparisons, the
    attribute's type for a constant, the given type for a splat). *)
Fixpoint getType (v : Value) : Ty :=
  match v with
  | BlockArgument _ t => t
  | OpResult op => getResultType op
  end
with getResultType (op : Operation) : Ty :=
  match op with
  | ConstantOp a => getAttrType a
  | CmpIOp _ l _ => getI1SameShape (getType l)
  | CmpFOp _ l _ => getI1SameShape (getType l)
  | SelectOp _ t _ => getType t
  | SplatOp ty _ => ty
  | BinaryOp _ l _ => getType l
  end.

(* ================================================================== *)
(** * The pattern rewriter *)

Inductive LogicalResult : Type := success | failure.

Definition failed (r : LogicalResult) : bool :=
  match r with
  | failure => true
  | success => false
  end.

(** What a rewrite has done so far: the operations it created, in order, and
    the operations it replaced with their replacement values. *)
Record PatternRewriter : Type := mkRewriter {
  created : list Operation;
  replaced : list (Operation * list Value)
}.

Definition emptyRewriter : PatternRewriter := mkRewriter [] [].

(** A rewriting computation; [None] is a failed assertion. *)
Definition Rewrite (A : Type) : Type :=
  PatternRewriter -> option (A * PatternRewriter).

Definition ret {A} (x : A) : Rewrite A := fun rw => Some (x, rw).

Definition bind {A B} (c : Rewrite A) (k : A -> Rewrite B) : Rewrite B :=
  fun rw =>
    match c rw with
    | Some (x, rw') => k x rw'
    | None => None
    end.

Definition assertion {A} (o : option A) : Rewrite A :=
  fun rw =>
    match o with
    | Some x => Some (x, rw)
    | None => None
    end.

Declare Scope rewrite_scope.
Delimit Scope rewrite_scope with rewrite.
Notation "x <- c ;; k" := (bind c (fun x => k))
  (at level 61, c at next level, right associativity) : rewrite_scope.
Notation "c ;;; k" := (bind c (fun _ => k))
  (at level 61, right associativity) : rewrite_scope.

(** [rewriter.create<OpTy>(loc, args...)]. *)
Definition create (op : Operation) : Rewrite Value :=
  fun rw => Some (OpResult op, mkRewriter (created rw ++ [op]) (replaced rw)).

(** [rewriter.replaceOp(op, values)]. *)
Definition replaceOp (op : Operation) (newValues : list Value) : Rewrite unit :=
  fun rw => Some (tt, mkRewriter (created rw) (replaced rw ++ [(op, newValues)])).

(** [rewriter.replaceOpWithNewOp<OpTy>(op, args...)]. *)
Definition replaceOpWithNewOp (op newOp : Operation) : Rewrite unit :=
  (v <- create newOp ;; replaceOp op [v])%rewrite.

(* ================================================================== *)
(** * The expansion patterns *)

Local Open Scope rewrite_scope.

(** Expands CeilDivUIOp (n, m) into
      n == 0 ? 0 : ((n-1) / m) + 1 *)
Definition CeilDivUIOpConverter_matchAndRewrite (op : Operation)
  : Rewrite LogicalResult :=
  match op with
  | CeilDivUIOp a b =>
      zero <- create (ConstantOp (getIntegerAttr (getType a) 0)) ;;
      compare <- create (CmpIOp CmpIPredicate.eq a zero) ;;
      one <- create (ConstantOp (getIntegerAttr (getType a) 1)) ;;
      minusOne <- create (SubIOp a one) ;;
      quotient <- create (DivUIOp minusOne b) ;;
      plusOne <- create (AddIOp quotient one) ;;
      res <- create (SelectOp compare zero plusOne) ;;
      replaceOp op [res] ;;;
      ret success
  | _ => ret failure
  end.

(** Expands CeilDivSIOp (n, m) into
      1) x = (m > 0) ? -1 : 1
      2) (n*m>0) ? ((n+x) / m) + 1 : - (-n / m) *)
Definition CeilDivSIOpConverter_matchAndRewrite (op : Operation)
  : Rewrite LogicalResult :=
  match op with
  | CeilDivSIOp a b =>
      let type := getResultType op in
      plusOne <- create (ConstantOp (getIntegerAttr type 1)) ;;
      zero <- create (ConstantOp (getIntegerAttr type 0)) ;;
      minusOne <- create (ConstantOp (getIntegerAttr type (-1))) ;;
      (* Compute x = (b>0) ? -1 : 1. *)
      compare <- create (CmpIOp CmpIPredicate.sgt b zero) ;;
      x <- create (SelectOp compare minusOne plusOne) ;;
      (* Compute positive res: 1 + ((x+a)/b). *)
      xPlusA <- create (AddIOp x a) ;;
      xPlusADivB <- create (DivSIOp xPlusA b) ;;
      posRes <- create (AddIOp plusOne xPlusADivB) ;;
      (* Compute negative res: - ((-a)/b). *)
      minusA <- create (SubIOp zero a) ;;
      minusADivB <- create (DivSIOp minusA b) ;;
      negRes <- create (SubIOp zero minusADivB) ;;
      (* Result is (a*b>0) ? pos result : neg result. *)
      aNeg <- create (CmpIOp CmpIPredicate.slt a zero) ;;
      aPos <- create (CmpIOp CmpIPredicate.sgt a zero) ;;
      bNeg <- create (CmpIOp CmpIPredicate.slt b zero) ;;
      bPos <- create (CmpIOp CmpIPredicate.sgt b zero) ;;
      firstTerm <- create (AndIOp aNeg bNeg) ;;
      secondTerm <- create (AndIOp aPos bPos) ;;
      compareRes <- create (OrIOp firstTerm secondTerm) ;;
      res <- create (SelectOp compareRes posRes negRes) ;;
      (* Perform substitution and return success. *)
      replaceOp op [res] ;;;
      ret success
  | _ => ret failure
  end.

(** Expands FloorDivSIOp (n, m) into
      1)  x = (m<0) ? 1 : -1
      2)  return (n*m<0) ? - ((-n+x) / m) -1 : n / m *)
Definition FloorDivSIOpConverter_matchAndRewrite (op : Operation)
  : Rewrite LogicalResult :=
  match op with
  | FloorDivSIOp a b =>
      let type := getResultType op in
      plusOne <- create (ConstantOp (getIntegerAttr type 1)) ;;
      zero <- create (ConstantOp (getIntegerAttr type 0)) ;;
      minusOne <- create (ConstantOp (getIntegerAttr type (-1))) ;;
      (* Compute x = (b<0) ? 1 : -1. *)
      compare <- create (CmpIOp CmpIPredicate.slt b zero) ;;
      x <- create (SelectOp compare plusOne minusOne) ;;
      (* Compute negative res: -1 - ((x-a)/b). *)
      xMinusA <- create (SubIOp x a) ;;
      xMinusADivB <- create (DivSIOp xMinusA b) ;;
      negRes <- create (SubIOp minusOne xMinusADivB) ;;
      (* Compute positive res: a/b. *)
      posRes <- create (DivSIOp a b) ;;
      (* Result is (a*b<0) ? negative result : positive result. *)
      aNeg <- create (CmpIOp CmpIPredicate.slt a zero) ;;
      aPos <- create (CmpIOp CmpIPredicate.sgt a zero) ;;
      bNeg <- create (CmpIOp CmpIPredicate.slt b zero) ;;
      bPos <- create (CmpIOp CmpIPredicate.sgt b zero) ;;
      firstTerm <- create (AndIOp aNeg bPos) ;;
      secondTerm <- create (AndIOp aPos bNeg) ;;
      compareRes <- create (OrIOp firstTerm secondTerm) ;;
      res <- create (SelectOp compareRes negRes posRes) ;;
      (* Perform substitution and return success. *)
      replaceOp op [res] ;;;
      ret success
  | _ => ret failure
  end.

(** [template <typename OpTy, arith::CmpFPredicate pred>
     struct MaxMinFOpConverter] *)
Definition MaxMinFOpConverter_matchAndRewrite
    (OpTy : BinaryOpName) (pred : CmpFPredicate.t) (op : Operation)
  : Rewrite LogicalResult :=
  match op with
  | BinaryOp n lhs rhs =>
      if BinaryOpName_eqb n OpTy then
        cmp <- create (CmpFOp pred lhs rhs) ;;
        select <- create (SelectOp cmp lhs rhs) ;;
        floatType <- assertion (cast_FloatType (getElementTypeOrSelf (getType lhs))) ;;
        isNaN <- create (CmpFOp CmpFPredicate.UNO lhs rhs) ;;
        nan <- create (ConstantFloatOp (getQNaN floatType) floatType) ;;
        nan <- match dyn_cast_VectorType (getType lhs) with
               | Some vectorType => create (SplatOp vectorType nan)
               | None => ret nan
               end ;;
        replaceOpWithNewOp op (SelectOp isNaN nan select) ;;;
        ret success
      else ret failure
  | _ => ret failure
  end.

(** [template <typename OpTy, arith::CmpIPredicate pred>
     struct MaxMinIOpConverter] *)
Definition MaxMinIOpConverter_matchAndRewrite
    (OpTy : BinaryOpName) (pred : CmpIPredicate.t) (op : Operation)
  : Rewrite LogicalResult :=
  match op with
  | BinaryOp n lhs rhs =>
      if BinaryOpName_eqb n OpTy then
        cmp <- create (CmpIOp pred lhs rhs) ;;
        replaceOpWithNewOp op (SelectOp cmp lhs rhs) ;;;
        ret success
      else ret failure
  | _ => ret failure
  end.

Local Close Scope rewrite_scope.

(* ================================================================== *)
(** * Registration and the pass *)

(** An [OpRewritePattern<OpTy>]: the operation it is rooted at and its
    rewrite. *)
Record RewritePattern : Type := mkPattern {
  getRootKind : OperationName;
  matchAndRewrite : Operation -> Rewrite LogicalResult
}.

Definition RewritePatternSet : Type := list RewritePattern.

Definition CeilDivSIOpConverter : RewritePattern :=
  mkPattern (arith ceildivsi) CeilDivSIOpConverter_matchAndRewrite.
Definition CeilDivUIOpConverter : RewritePattern :=
  mkPattern (arith ceildivui) CeilDivUIOpConverter_matchAndRewrite.
Definition FloorDivSIOpConverter : RewritePattern :=
  mkPattern (arith floordivsi) FloorDivSIOpConverter_matchAndRewrite.
Definition MaxMinFOpConverter (OpTy : BinaryOpName) (pred : CmpFPredicate.t)
  : RewritePattern :=
  mkPattern (arith OpTy) (MaxMinFOpConverter_matchAndRewrite OpTy pred).
Definition MaxMinIOpConverter (OpTy : BinaryOpName) (pred : CmpIPredicate.t)
  : RewritePattern :=
  mkPattern (arith OpTy) (MaxMinIOpConverter_matchAndRewrite OpTy pred).

(** [patterns.add<...>(patterns.getContext())] *)
Definition populateArithmeticExpandOpsPatterns (patterns : RewritePatternSet)
  : RewritePatternSet :=
  patterns ++
  [ CeilDivSIOpConverter;
    CeilDivUIOpConverter;
    FloorDivSIOpConverter;
    MaxMinFOpConverter maxf CmpFPredicate.OGT;
    MaxMinFOpConverter minf CmpFPredicate.OLT;
    MaxMinIOpConverter maxsi CmpIPredicate.sgt;
    MaxMinIOpConverter maxui CmpIPredicate.ugt;
    MaxMinIOpConverter minsi CmpIPredicate.slt;
    MaxMinIOpConverter minui CmpIPredicate.ult ].

(** The legality declarations of a [ConversionTarget]. *)
Record ConversionTarget : Type := mkTarget {
  legalDialects : list Dialect;
  illegalOps : list OperationName
}.

Definition emptyTarget : ConversionTarget := mkTarget [] [].

Definition addLegalDialect (ds : list Dialect) (t : ConversionTarget)
  : ConversionTarget :=
  mkTarget (legalDialects t ++ ds) (illegalOps t).

Definition addIllegalOp (ops : list OperationName) (t : ConversionTarget)
  : ConversionTarget :=
  mkTarget (legalDialects t) (illegalOps t ++ ops).

(** Modelled from the spec: the legality query belongs to the host's
    conversion framework; an operation marked illegal is illegal, any other
    operation is legal when its dialect is marked legal. *)
Definition isIllegal (t : ConversionTarget) (op : Operation) : bool :=
  existsb (OperationName_eqb (getName op)) (illegalOps t).

Definition isLegal (t : ConversionTarget) (op : Operation) : bool :=
  negb (isIllegal t op) &&
  existsb (Dialect_eqb (getDialect (getName op))) (legalDialects t).

Section Pass.
(** The function the pass runs on and the host's conversion driver. *)
Variable FuncOp : Type.
Variable applyPartialConversion :
  FuncOp -> ConversionTarget -> RewritePatternSet -> LogicalResult * FuncOp.

(** The state a pass run acts on: the function and the failure flag. *)
Record PassState : Type := mkPassState {
  getFunction : FuncOp;
  passFailed : bool
}.

Definition signalPassFailure (st : PassState) : PassState :=
  mkPassState (getFunction st) true.

(** [ArithmeticExpandOpsPass::runOnFunction] *)
Definition runOnFunction (st : PassState) : PassState :=
  let patterns : RewritePatternSet := [] in
  let target := emptyTarget in
  let patterns := populateArithmeticExpandOpsPatterns patterns in
  let target := addLegalDialect [ArithmeticDialect; StandardOpsDialect] target in
  let target :=
    addIllegalOp
      [ arith ceildivsi;
        arith ceildivui;
        arith floordivsi;
        arith maxf;
        arith maxsi;
        arith maxui;
        arith minf;
        arith minsi;
        arith minui ] target in
  let '(result, func) := applyPartialConversion (getFunction st) target patterns in
  let st := mkPassState func (passFailed st) in
  if failed result then signalPassFailure st else st.

(** [createArithmeticExpandOpsPass]: a fresh pass object; run on a
    function, it starts with the failure flag clear. *)
Definition createArithmeticExpandOpsPass (f : FuncOp) : PassState :=
  mkPassState f false.
End Pass.

(* ================================================================== *)
(** * Evaluation of the created operations *)

(** The patterns only build operations; what an operation computes is the
    business of the arithmetic and standard dialects, which are not in this
    file.  The definitions of this part give the operations the meaning the
    specification describes. *)

(** A [w]-bit integer is kept as its bit pattern, a number in [[0, 2^w)]. *)
Definition wrap (w x : Z) : Z := x mod 2 ^ w.

(** The two's-complement reading of a bit pattern. *)
Definition signed (w x : Z) : Z :=
  if x <? 2 ^ (w - 1) then x else x - 2 ^ w.

Definition MIN (w : Z) : Z := - 2 ^ (w - 1).
Definition MAX (w : Z) : Z := 2 ^ (w - 1) - 1.
Definition UMAX (w : Z) : Z := 2 ^ w - 1.

(** Run-time data: an element, and a scalar or the elements of a vector. *)
Inductive Datum : Type :=
| DInt (bits : Z)
| DFloat (f : APFloat).

Inductive RuntimeValue : Type :=
| RScalar (d : Datum)
| RVector (ds : list Datum).

Definition option_bind {A B} (o : option A) (k : A -> option B) : option B :=
  match o with
  | Some x => k x
  | None => None
  end.

Fixpoint zipWith2 {A} (f : A -> A -> option A) (xs ys : list A)
  : option (list A) :=
  match xs, ys with
  | [], [] => Some []
  | x :: xs', y :: ys' =>
      option_bind (f x y) (fun z =>
      option_map (cons z) (zipWith2 f xs' ys'))
  | _, _ => None
  end.

Fixpoint zipWith3 {A} (f : A -> A -> A -> option A) (xs ys zs : list A)
  : option (list A) :=
  match xs, ys, zs with
  | [], [], [] => Some []
  | x :: xs', y :: ys', z :: zs' =>
      option_bind (f x y z) (fun r =>
      option_map (cons r) (zipWith3 f xs' ys' zs'))
  | _, _, _ => None
  end.

(** An operation on scalars applies to vectors element by element. *)
Definition elementwise2 (f : Datum -> Datum -> option Datum)
    (x y : RuntimeValue) : option RuntimeValue :=
  match x, y with
  | RScalar a, RScalar b => option_map RScalar (f a b)
  | RVector xs, RVector ys => option_map RVector (zipWith2 f xs ys)
  | _, _ => None
  end.

(** Modelled from the spec: the integer comparison of the arithmetic
    dialect, "integer compare with signed/unsigned greater-than/less-than/
    equal": the unsigned predicates compare the bit patterns, the signed
    ones their two's-complement readings. *)
Definition evalCmpI (pred : CmpIPredicate.t) (w a b : Z) : bool :=
  match pred with
  | CmpIPredicate.eq => a =? b
  | CmpIPredicate.ne => negb (a =? b)
  | CmpIPredicate.slt => signed w a <? signed w b
  | CmpIPredicate.sle => signed w a <=? signed w b
  | CmpIPredicate.sgt => signed w a >? signed w b
  | CmpIPredicate.sge => signed w a >=? signed w b
  | CmpIPredicate.ult => a <? b
  | CmpIPredicate.ule => a <=? b
  | CmpIPredicate.ugt => a >? b
  | CmpIPredicate.uge => a >=? b
  end.

(** Modelled from the spec: the float comparison of the arithmetic dialect,
    "IEEE-754 comparisons that respectively return false / true when either
    operand is NaN" for the ordered and the unordered predicates. *)
Definition evalCmpF (pred : CmpFPredicate.t) (x y : APFloat) : bool :=
  let c := compareAPFloat x y in
  let has (k : comparison) :=
    match c, k with
    | Some Eq, Eq | Some Lt, Lt | Some Gt, Gt => true
    | _, _ => false
    end in
  let unordered := match c with None => true | Some _ => false end in
  match pred with
  | CmpFPredicate.AlwaysFalse => false
  | CmpFPredicate.OEQ => has Eq
  | CmpFPredicate.OGT => has Gt
  | CmpFPredicate.OGE => has Gt || has Eq
  | CmpFPredicate.OLT => has Lt
  | CmpFPredicate.OLE => has Lt || has Eq
  | CmpFPredicate.ONE => has Lt || has Gt
  | CmpFPredicate.ORD => negb unordered
  | CmpFPredicate.UEQ => unordered || has Eq
  | CmpFPredicate.UGT => unordered || has Gt
  | CmpFPredicate.UGE => unordered || has Gt || has Eq
  | CmpFPredicate.ULT => unordered || has Lt
  | CmpFPredicate.ULE => unordered || has Lt || has Eq
  | CmpFPredicate.UNE => unordered || has Lt || has Gt
  | CmpFPredicate.UNO => unordered
  | CmpFPredicate.AlwaysTrue => true
  end.

Definition boolToI1 (b : bool) : Datum := DInt (if b then 1 else 0).

Definition i1ToBool (c : Z) : bool := negb (c =? 0).

Section Evaluation.
(** What the target's signed division yields for [MIN_w / -1], the one
    quotient that does not fit [w] bits: a value, or nothing when the
    division traps.  The specification only says that this case "overflows
    the underlying signed divide and inherits that behavior", so the
    evaluator takes the behaviour as a parameter. *)
Variable sdiv_overflow : Z -> option Z.

(** Modelled from the spec: the integer operations of the arithmetic
    dialect at width [w], on bit patterns: add, sub (and mul) wrap around,
    "signed truncating division (round toward zero)", unsigned division on
    the patterns, bitwise and/or; a division by zero has no value.  The
    operations the patterns expand are given no evaluation here: their
    meaning is the mathematical one that the theorems state. *)
Definition evalIntBinary (name : BinaryOpName) (w a b : Z) : option Z :=
  match name with
  | addi => Some (wrap w (a + b))
  | subi => Some (wrap w (a - b))
  | muli => Some (wrap w (a * b))
  | divui => if b =? 0 then None else Some (a / b)
  | remui => if b =? 0 then None else Some (a mod b)
  | divsi =>
      if signed w b =? 0 then None
      else if (signed w a =? MIN w) && (signed w b =? -1)
           then option_map (wrap w) (sdiv_overflow w)
           else Some (wrap w (Z.quot (signed w a) (signed w b)))
  | remsi =>
      if signed w b =? 0 then None
      else Some (wrap w (Z.rem (signed w a) (signed w b)))
  | andi => Some (Z.land a b)
  | ori => Some (Z.lor a b)
  | xori => Some (Z.lxor a b)
  | _ => None
  end.

Definition evalBinary (name : BinaryOpName) (elt : ScalarType)
    (x y : Datum) : option Datum :=
  match elt, x, y with
  | IntegerType w, DInt a, DInt b => option_map DInt (evalIntBinary name w a b)
  | _, _, _ => None
  end.

Definition evalCmpIDatum (pred : CmpIPredicate.t) (elt : ScalarType)
    (x y : Datum) : option Datum :=
  match elt, x, y with
  | IntegerType w, DInt a, DInt b => Some (boolToI1 (evalCmpI pred w a b))
  | _, _, _ => None
  end.

Definition evalCmpFDatum (pred : CmpFPredicate.t) (elt : ScalarType)
    (x y : Datum) : option Datum :=
  match elt, x, y with
  | FloatType _, DFloat a, DFloat b => Some (boolToI1 (evalCmpF pred a b))
  | _, _, _ => None
  end.

Definition selectDatum (c t f : Datum) : option Datum :=
  match c with
  | DInt b => Some (if i1ToBool b then t else f)
  | DFloat _ => None
  end.

(** Modelled from the spec: the standard dialect's "value select", of type
    [i1 x T x T -> T] on scalars or vectors: a scalar condition picks a
    whole operand, a vector condition picks element by element. *)
Definition evalSelect (c t f : RuntimeValue) : option RuntimeValue :=
  match c, t, f with
  | RScalar (DInt b), RScalar _, RScalar _
  | RScalar (DInt b), RVector _, RVector _ =>
      Some (if i1ToBool b then t else f)
  | RVector cs, RVector ts, RVector fs =>
      option_map RVector (zipWith3 selectDatum cs ts fs)
  | _, _, _ => None
  end.

(** Modelled from the spec: the standard dialect's "scalar-to-vector
    broadcast": the scalar operand in every element of the vector type. *)
Definition evalSplat (type : Ty) (x : RuntimeValue) : option RuntimeValue :=
  match type, x with
  | VectorType shape _, RScalar d => Some (RVector (repeat d (getNumElements shape)))
  | _, _ => None
  end.

Definition evalAttribute (a : Attribute) : option Datum :=
  match a with
  | IntegerAttr type v =>
      match getElementTypeOrSelf type with
      | IntegerType w => Some (DInt (wrap w v))
      | FloatType _ => None
      end
  | FloatAttr type f =>
      match getElementTypeOrSelf type with
      | FloatType _ => Some (DFloat f)
      | IntegerType _ => None
      end
  end.

(** A constant of vector type holds its value in every element. *)
Definition evalConstant (a : Attribute) : option RuntimeValue :=
  option_map
    (fun d => match getAttrType a with
              | Scalar _ => RScalar d
              | VectorType shape _ => RVector (repeat d (getNumElements shape))
              end)
    (evalAttribute a).

(** The values of the block arguments. *)
Definition Env : Type := nat -> option RuntimeValue.

(** Every operand of an operation is evaluated, also the operand a
    [select] does not pick: the operations are all executed. *)
Fixpoint evalValue (env : Env) (v : Value) : option RuntimeValue :=
  match v with
  | BlockArgument n _ => env n
  | OpResult op => evalOperation env op
  end
with evalOperation (env : Env) (op : Operation) : option RuntimeValue :=
  match op with
  | ConstantOp a => evalConstant a
  | CmpIOp pred l r =>
      option_bind (evalValue env l) (fun x =>
      option_bind (evalValue env r) (fun y =>
      elementwise2 (evalCmpIDatum pred (getElementTypeOrSelf (getType l))) x y))
  | CmpFOp pred l r =>
      option_bind (evalValue env l) (fun x =>
      option_bind (evalValue env r) (fun y =>
      elementwise2 (evalCmpFDatum pred (getElementTypeOrSelf (getType l))) x y))
  | SelectOp c t f =>
      option_bind (evalValue env c) (fun cv =>
      option_bind (evalValue env t) (fun tv =>
      option_bind (evalValue env f) (fun fv =>
      evalSelect cv tv fv)))
  | SplatOp type x =>
      option_bind (evalValue env x) (evalSplat type)
  | BinaryOp name l r =>
      option_bind (evalValue env l) (fun x =>
      option_bind (evalValue env r) (fun y =>
      elementwise2 (evalBinary name (getElementTypeOrSelf (getType l))) x y))
  end.

(** The value a rewrite names as the replacement of the matched operation,
    with the operations it created. *)
Definition rewriteRoot (p : RewritePattern) (op : Operation)
  : option (Value * list Operation) :=
  match matchAndRewrite p op emptyRewriter with
  | Some (success, rw) =>
      match replaced rw with
      | [(_, [v])] => Some (v, created rw)
      | _ => None
      end
  | _ => None
  end.

(** The operation [name] applied to two block arguments of type [type]. *)
Definition matchedOp (name : BinaryOpName) (type : Ty) : Operation :=
  BinaryOp name (BlockArgument 0 type) (BlockArgument 1 type).

Definition operands (a b : RuntimeValue) : Env :=
  fun n => match n with
           | O => Some a
           | S O => Some b
           | _ => None
           end.

(** Expand [name] on operands of type [type] with pattern [p] and evaluate
    the replacement on the run-time operands [a] and [b]. *)
Definition evalExpansion (p : RewritePattern) (name : BinaryOpName)
    (type : Ty) (a b : RuntimeValue) : option RuntimeValue :=
  match rewriteRoot p (matchedOp name type) with
  | Some (root, _) => evalValue (operands a b) root
  | None => None
  end.
End Evaluation.

(** A signed integer as a [w]-bit scalar, and back. *)
Definition ofSigned (w x : Z) : RuntimeValue := RScalar (DInt (wrap w x)).
Definition ofUnsigned (w x : Z) : RuntimeValue := RScalar (DInt (wrap w x)).

Definition i (w : Z) : Ty := Scalar (IntegerType w).

(** The ceiling and the floor of the rational [a/b]. *)
Definition ceilingQ (a b : Z) : Z := Qceiling (inject_Z a / inject_Z b).
Definition floorQ (a b : Z) : Z := Qfloor (inject_Z a / inject_Z b).

(** A float as a scalar, floats as the elements of a vector. *)
Definition ofFloat (x : APFloat) : RuntimeValue := RScalar (DFloat x).
Definition ofFloats (xs : list APFloat) : RuntimeValue := RVector (map DFloat xs).

(** The ordered comparisons of two floats: false when either is a NaN. *)
Definition orderedGreater (x y : APFloat) : bool :=
  match compareAPFloat x y with
  | Some Gt => true
  | _ => false
  end.

Definition orderedLess (x y : APFloat) : bool :=
  match compareAPFloat x y with
  | Some Lt => true
  | _ => false
  end.

(** The contract of the float min/max expansions as the specification words
    it: a quiet NaN of the float type when either operand is a NaN, otherwise
    [lhs] when the ordered comparison holds and [rhs] when it does not.
    This is the reference the expansion is compared with; it is not taken
    from the pattern. *)
Definition MinMaxFloat_contract (ordered : APFloat -> APFloat -> bool)
    (sem : fltSemantics) (lhs rhs : APFloat) : APFloat :=
  if isNaN lhs || isNaN rhs then getQNaN sem
  else if ordered lhs rhs then lhs else rhs.

Fixpoint zipWith {A B C} (f : A -> B -> C) (xs : list A) (ys : list B) : list C :=
  match xs, ys with
  | x :: xs', y :: ys' => f x y :: zipWith f xs' ys'
  | _, _ => []
  end.

(** The nine operations the pass expands. *)
Definition expandedOps : list OperationName :=
  [ arith ceildivsi; arith ceildivui; arith floordivsi;
    arith maxf; arith maxsi; arith maxui;
    arith minf; arith minsi; arith minui ].

(** The operations an expansion is allowed to create: constants, add, sub,
    signed and unsigned divide, bitwise and/or, the two comparisons, select
    and the scalar-to-vector broadcast. *)
Definition expansionPrimitives : list OperationName :=
  [ arith_constant; arith addi; arith subi; arith divsi; arith divui;
    arith andi; arith ori; arith_cmpi; arith_cmpf; std_select; std_splat ].

Definition memName (n : OperationName) (l : list OperationName) : bool :=
  existsb (OperationName_eqb n) l.

(** The target that [runOnFunction] declares. *)
Definition expandOpsTarget : ConversionTarget :=
  mkTarget [ArithmeticDialect; StandardOpsDialect] expandedOps.

(** A matched operation is well typed when its operands have one type, of
    integers for the integer operations and of floats for the float ones. *)
Definition isFloatOp (n : BinaryOpName) : bool :=
  match n with
  | addf | subf | mulf | divf | maxf | minf => true
  | _ => false
  end.

Definition isFloatType (t : ScalarType) : bool :=
  match t with
  | FloatType _ => true
  | IntegerType _ => false
  end.

Definition wellTyped (op : Operation) : bool :=
  match op with
  | BinaryOp n l r =>
      Ty_eqb (getType l) (getType r) &&
      Bool.eqb (isFloatOp n) (isFloatType (getElementTypeOrSelf (getType l)))
  | _ => false
  end.


(** The condition of the [select] that defines a value. *)
Definition selectCondition (v : Value) : option Value :=
  match v with
  | OpResult (SelectOp c _ _) => Some c
  | _ => None
  end.

Definition rootCondition (p : RewritePattern) (op : Operation) : option Value :=
  match rewriteRoot p op with
  | Some (root, _) => selectCondition root
  | None => None
  end.

(** What the operations created for a float min/max compute on one pair of
    floats: the constant when the unordered comparison holds, otherwise the
    operand the pattern's comparison picks. *)
Definition maxMinF_element (pred : CmpFPredicate.t) (sem : fltSemantics)
    (lhs rhs : APFloat) : APFloat :=
  if evalCmpF CmpFPredicate.UNO lhs rhs then getQNaN sem
  else if evalCmpF pred lhs rhs then lhs else rhs.

Definition pickElement (c : bool) (tf : APFloat * APFloat) : APFloat :=
  if c then fst tf else snd tf.

(** Some single-precision floats: [m * 2^e] with a 24-bit significand. *)
Definition f32 (sign : bool) (m : positive) (e : Z) : APFloat :=
  mkAPFloat IEEEsingle (fcNormal sign m e).
Definition f32_1 : APFloat := f32 false 8388608 (-23).
Definition f32_2 : APFloat := f32 false 8388608 (-22).
Definition f32_3 : APFloat := f32 false 12582912 (-22).
Definition f32_4 : APFloat := f32 false 8388608 (-21).
Definition f32_sNaN : APFloat := mkAPFloat IEEEsingle (fcNaN true false 1%N).

Definition posZero (sem : fltSemantics) : APFloat := mkAPFloat sem (fcZero false).
Definition negZero (sem : fltSemantics) : APFloat := mkAPFloat sem (fcZero true).

(** Signed integers as the elements of a [w]-bit vector. *)
Definition ofSigneds (w : Z) (xs : list Z) : RuntimeValue :=
  RVector (map (fun x => DInt (wrap w x)) xs).

Definition pickDatum (c : bool) (tf : Z * Z) : Z :=
  if c then fst tf else snd tf.

(** [x] is at least, or at most, [y] in the IEEE order (false when either
    is a NaN). *)
Definition orderedGreaterEqual (x y : APFloat) : bool :=
  evalCmpF CmpFPredicate.OGE x y.
Definition orderedLessEqual (x y : APFloat) : bool :=
  evalCmpF CmpFPredicate.OLE x y.

(** The operands of an operation. *)
Definition getOperands (op : Operation) : list Value :=
  match op with
  | ConstantOp _ => []
  | CmpIOp _ l r | CmpFOp _ l r | BinaryOp _ l r => [l; r]
  | SelectOp c t f => [c; t; f]
  | SplatOp _ x => [x]
  end.

(** A list of operations, in creation order, uses a value only after it is
    available: each operand is among [available] or is the result of an
    operation earlier in the list. *)
Fixpoint definedBeforeUse (available : list Value) (ops : list Operation) : Prop :=
  match ops with
  | [] => True
  | op :: rest =>
      incl (getOperands op) available /\
      definedBeforeUse (OpResult op :: available) rest
  end.

Definition isIntegerType (t : ScalarType) : bool := negb (isFloatType t).

(** Modelled from the spec: the operations' verifiers belong to the
    dialects, outside this file.  The typing of the builder interface: the
    integer operations and the integer compare take two operands of one
    (scalar or vector of) integer type, the float compare two of one float
    type, a select is [i1 x T x T -> T] with the condition a scalar [i1] or
    an [i1] in the shape of [T], a broadcast takes a scalar of the vector's
    element type, and a constant's attribute is of its kind of type. *)
Definition verifyOp (op : Operation) : bool :=
  match op with
  | ConstantOp (IntegerAttr t _) => isIntegerType (getElementTypeOrSelf t)
  | ConstantOp (FloatAttr t _) => isFloatType (getElementTypeOrSelf t)
  | CmpIOp _ l r =>
      Ty_eqb (getType l) (getType r) &&
      isIntegerType (getElementTypeOrSelf (getType l))
  | CmpFOp _ l r =>
      Ty_eqb (getType l) (getType r) &&
      isFloatType (getElementTypeOrSelf (getType l))
  | BinaryOp n l r =>
      Ty_eqb (getType l) (getType r) &&
      Bool.eqb (isFloatOp n) (isFloatType (getElementTypeOrSelf (getType l)))
  | SelectOp c t f =>
      Ty_eqb (getType t) (getType f) &&
      (Ty_eqb (getType c) (getI1SameShape (getType t)) ||
       Ty_eqb (getType c) (Scalar (IntegerType 1)))
  | SplatOp ty x =>
      match ty with
      | VectorType _ e => Ty_eqb (getType x) (Scalar e)
      | Scalar _ => false
      end
  end.

Arguments evalIntBinary : simpl never.
Arguments evalCmpI : simpl never.
Arguments wrap : simpl never.

(* ================================================================== *)
(** * Bit patterns and signed readings *)

Ltac pow2 w :=
  let H := fresh "Hpow" in
  let H' := fresh "Hpow" in
  assert (H : 0 < 2 ^ (w - 1)) by (apply Z.pow_pos_nonneg; lia);
  assert (H' : 2 ^ w = 2 * 2 ^ (w - 1))
    by (replace w with (Z.succ (w - 1)) at 1 by lia;
        apply Z.pow_succ_r; lia).

Lemma wrap_range w x : 0 <= w -> 0 <= wrap w x < 2 ^ w.
Proof.
  intros Hw. unfold wrap. apply Z.mod_pos_bound.
  apply Z.pow_pos_nonneg; lia.
Qed.

Lemma wrap_small w x : 0 <= x < 2 ^ w -> wrap w x = x.
Proof. intros H. unfold wrap. apply Z.mod_small; assumption. Qed.

Lemma wrap_neg w x : 1 <= w -> - 2 ^ w <= x < 0 -> wrap w x = x + 2 ^ w.
Proof.
  intros Hw H. unfold wrap.
  symmetry. apply Z.mod_unique with (q := -1); lia.
Qed.

Lemma wrap_wrap_add w x y : 1 <= w -> wrap w (wrap w x + wrap w y) = wrap w (x + y).
Proof.
  intros Hw. unfold wrap. symmetry. apply Z.add_mod.
  pow2 w; lia.
Qed.

Lemma wrap_wrap_sub w x y : 1 <= w -> wrap w (wrap w x - wrap w y) = wrap w (x - y).
Proof.
  intros Hw. unfold wrap. symmetry. apply Zminus_mod.
Qed.

Lemma signed_wrap w x : 1 <= w -> MIN w <= x <= MAX w -> signed w (wrap w x) = x.
Proof.
  unfold MIN, MAX, signed. intros Hw H. pow2 w.
  destruct (Z.neg_nonneg_cases x) as [Hx | Hx].
  - rewrite wrap_neg by lia.
    destruct (Z.ltb_spec (x + 2 ^ w) (2 ^ (w - 1))); lia.
  - rewrite wrap_small by lia.
    destruct (Z.ltb_spec x (2 ^ (w - 1))); lia.
Qed.

Lemma signed_range w x : 1 <= w -> 0 <= x < 2 ^ w -> MIN w <= signed w x <= MAX w.
Proof.
  unfold MIN, MAX, signed. intros Hw H. pow2 w.
  destruct (Z.ltb_spec x (2 ^ (w - 1))); lia.
Qed.

Lemma wrap_signed w x : 1 <= w -> 0 <= x < 2 ^ w -> wrap w (signed w x) = x.
Proof.
  unfold signed. intros Hw H. pow2 w.
  destruct (Z.ltb_spec x (2 ^ (w - 1))).
  - apply wrap_small; lia.
  - rewrite wrap_neg by lia. lia.
Qed.

Lemma wrap_inj w x y :
  1 <= w -> MIN w <= x <= MAX w -> MIN w <= y <= MAX w ->
  wrap w x = wrap w y -> x = y.
Proof.
  intros Hw Hx Hy H.
  rewrite <- (signed_wrap w x), <- (signed_wrap w y) by assumption.
  now rewrite H.
Qed.

(* ================================================================== *)
(** * Ceiling and floor of a rational, by integer division *)

Lemma floorQ_div a b : floorQ a b = a / b.
Proof. unfold floorQ. symmetry. apply Zdiv_Qdiv. Qed.

Lemma ceilingQ_div a b : ceilingQ a b = - ((- a) / b).
Proof.
  unfold ceilingQ, Qceiling. f_equal.
  rewrite (Zdiv_Qdiv (- a) b).
  apply Qfloor_comp.
  rewrite inject_Z_opp. unfold Qdiv. ring.
Qed.

(* ================================================================== *)
(** * Truncating division against floor and ceiling *)

(** Truncating division and flooring division. *)
Lemma quot_nonneg_div a b : 0 <= a -> 0 < b -> Z.quot a b = a / b.
Proof. intros. apply Z.quot_div_nonneg; assumption. Qed.

Lemma quot_nonpos_neg_div a b : a <= 0 -> b < 0 -> Z.quot a b = a / b.
Proof.
  intros Ha Hb.
  rewrite <- (Z.opp_involutive a), <- (Z.opp_involutive b).
  rewrite Z.quot_opp_opp, Z.div_opp_opp by lia.
  apply Z.quot_div_nonneg; lia.
Qed.

(** The floor of a negative over a positive, from the quotient one below. *)
Lemma div_neg_pos n m : 0 < n -> 0 < m -> (- n) / m = - 1 - (n - 1) / m.
Proof.
  intros Hn Hm.
  symmetry. apply Z.div_unique with (r := m - 1 - (n - 1) mod m).
  - left. pose proof (Z.mod_pos_bound (n - 1) m Hm). lia.
  - pose proof (Z.div_mod (n - 1) m ltac:(lia)). lia.
Qed.

Lemma floor_same_sign a b :
  b <> 0 -> ~ ((a < 0 /\ 0 < b) \/ (0 < a /\ b < 0)) -> Z.quot a b = a / b.
Proof.
  intros Hb H.
  destruct (Z.lt_trichotomy b 0) as [Hneg | [H0 | Hpos]]; [ | lia | ].
  - apply quot_nonpos_neg_div; lia.
  - apply quot_nonneg_div; lia.
Qed.

Lemma floor_neg_pos a b :
  a < 0 -> 0 < b -> - 1 - Z.quot (- 1 - a) b = a / b.
Proof.
  intros Ha Hb.
  rewrite quot_nonneg_div by lia.
  replace a with (- (- a)) at 2 by lia.
  rewrite div_neg_pos by lia. f_equal. f_equal. lia.
Qed.

Lemma floor_pos_neg a b :
  0 < a -> b < 0 -> - 1 - Z.quot (1 - a) b = a / b.
Proof.
  intros Ha Hb.
  rewrite quot_nonpos_neg_div by lia.
  assert (E1 : (1 - a) / b = (a - 1) / (- b))
    by (rewrite <- Z.div_opp_opp by lia; f_equal; lia).
  assert (E2 : a / b = (- a) / (- b))
    by (rewrite Z.div_opp_opp by lia; reflexivity).
  rewrite E1, E2, div_neg_pos by lia. reflexivity.
Qed.

Lemma ceil_pos_pos a b :
  0 < a -> 0 < b -> 1 + Z.quot (- 1 + a) b = - ((- a) / b).
Proof.
  intros Ha Hb.
  rewrite quot_nonneg_div by lia.
  rewrite div_neg_pos by lia.
  replace (-1 + a) with (a - 1) by lia. lia.
Qed.

Lemma ceil_neg_neg a b :
  a < 0 -> b < 0 -> 1 + Z.quot (1 + a) b = - ((- a) / b).
Proof.
  intros Ha Hb.
  rewrite quot_nonpos_neg_div by lia.
  assert (E1 : (1 + a) / b = (- a - 1) / (- b))
    by (rewrite <- Z.div_opp_opp by lia; f_equal; lia).
  assert (E2 : (- a) / b = (- - a) / (- b))
    by (rewrite Z.div_opp_opp by lia; reflexivity).
  rewrite E1, E2, div_neg_pos by lia. lia.
Qed.

Lemma ceil_other_sign a b :
  b <> 0 -> ~ ((a < 0 /\ b < 0) \/ (0 < a /\ 0 < b)) ->
  - Z.quot (- a) b = - ((- a) / b).
Proof.
  intros Hb H. f_equal. apply floor_same_sign; lia.
Qed.

(** Bounds of the rounded quotients. *)
Lemma div_bounds w a b :
  1 <= w -> MIN w <= a <= MAX w -> MIN w <= b <= MAX w -> b <> 0 ->
  ~ (a = MIN w /\ b = -1) -> MIN w <= a / b <= MAX w.
Proof.
  unfold MIN, MAX. intros Hw Ha Hb Hb0 Hov. pow2 w.
  destruct (Z.lt_trichotomy b 0) as [Hneg | [H0 | Hpos]]; [ | lia | ].
  - pose proof (Z.div_mod a b Hb0).
    pose proof (Z.mod_neg_bound a b Hneg). nia.
  - pose proof (Z.div_mod a b Hb0).
    pose proof (Z.mod_pos_bound a b Hpos). nia.
Qed.

Lemma ceil_bounds w a b :
  1 <= w -> MIN w <= a <= MAX w -> MIN w <= b <= MAX w -> b <> 0 ->
  ~ (a = MIN w /\ b = -1) -> MIN w <= - ((- a) / b) <= MAX w.
Proof.
  unfold MIN, MAX. intros Hw Ha Hb Hb0 Hov. pow2 w.
  destruct (Z.lt_trichotomy b 0) as [Hneg | [H0 | Hpos]]; [ | lia | ].
  - pose proof (Z.div_mod (- a) b Hb0).
    pose proof (Z.mod_neg_bound (- a) b Hneg). nia.
  - pose proof (Z.div_mod (- a) b Hb0).
    pose proof (Z.mod_pos_bound (- a) b Hpos). nia.
Qed.

(* ================================================================== *)
(** * The integer operations on [wrap]ped signed numbers *)

Section IntegerOps.
Variable ovf : Z -> option Z.
Variable w : Z.
Hypothesis Hw : 1 <= w.

Lemma wrap_0 : wrap w 0 = 0.
Proof. apply wrap_small. pow2 w. lia. Qed.

Lemma cmpi_slt_0 a :
  MIN w <= a <= MAX w ->
  evalCmpI CmpIPredicate.slt w (wrap w a) (wrap w 0) = (a <? 0).
Proof.
  intros Ha. unfold evalCmpI.
  rewrite !signed_wrap; trivial.
  unfold MIN, MAX. pow2 w. lia.
Qed.

Lemma cmpi_sgt_0 a :
  MIN w <= a <= MAX w ->
  evalCmpI CmpIPredicate.sgt w (wrap w a) (wrap w 0) = (0 <? a).
Proof.
  intros Ha. unfold evalCmpI.
  rewrite !signed_wrap; trivial.
  - apply Z.gtb_ltb.
  - unfold MIN, MAX. pow2 w. lia.
Qed.

Lemma addi_wrap a b :
  evalIntBinary ovf addi w (wrap w a) (wrap w b) = Some (wrap w (a + b)).
Proof. unfold evalIntBinary. now rewrite wrap_wrap_add. Qed.

Lemma subi_wrap a b :
  evalIntBinary ovf subi w (wrap w a) (wrap w b) = Some (wrap w (a - b)).
Proof. unfold evalIntBinary. now rewrite wrap_wrap_sub. Qed.

(** Signed division of representable numbers, the overflowing pair apart,
    is the truncated quotient. *)
Lemma divsi_wrap a b :
  MIN w <= a <= MAX w -> MIN w <= b <= MAX w -> b <> 0 ->
  ~ (a = MIN w /\ b = -1) ->
  evalIntBinary ovf divsi w (wrap w a) (wrap w b) = Some (wrap w (Z.quot a b)).
Proof.
  intros Ha Hb Hb0 Hov. unfold evalIntBinary.
  rewrite !signed_wrap by assumption.
  destruct (Z.eqb_spec b 0); [ contradiction | ].
  destruct (Z.eqb_spec a (MIN w)), (Z.eqb_spec b (-1)); simpl;
    try reflexivity.
  exfalso. apply Hov. split; assumption.
Qed.

(** With a non-zero divisor, signed division yields a value whenever the
    overflowing division does. *)
Lemma divsi_value x b :
  MIN w <= b <= MAX w -> b <> 0 -> (exists v, ovf w = Some v) ->
  exists q, evalIntBinary ovf divsi w x (wrap w b) = Some q.
Proof.
  intros Hb Hb0 [v Hv]. unfold evalIntBinary.
  rewrite signed_wrap by assumption.
  destruct (Z.eqb_spec b 0); [ contradiction | ].
  destruct (_ && _).
  - rewrite Hv. simpl. eauto.
  - eauto.
Qed.
End IntegerOps.

Lemma wrap_1 w : 1 <= w -> wrap w 1 = 1.
Proof. intros. apply wrap_small. pow2 w. lia. Qed.

Lemma wrap_opp_MIN w : 1 <= w -> wrap w (0 - MIN w) = wrap w (MIN w).
Proof.
  intros Hw. unfold MIN. pow2 w.
  rewrite wrap_small, wrap_neg by lia. lia.
Qed.

(** A divisor other than [0] and [-1] never overflows: the division yields
    a value whatever the dividend and whatever the target does on overflow. *)
Lemma divsi_value_other (ovf : Z -> option Z) w x b :
  1 <= w -> MIN w <= b <= MAX w -> b <> 0 -> b <> -1 ->
  exists q, evalIntBinary ovf divsi w x (wrap w b) = Some q.
Proof.
  intros Hw Hb Hb0 Hb1. unfold evalIntBinary.
  rewrite signed_wrap by assumption.
  destruct (Z.eqb_spec b 0); [ contradiction | ].
  destruct (Z.eqb_spec b (-1)); [ contradiction | ].
  rewrite andb_false_r. eauto.
Qed.

Lemma ceil_zero b : ceilingQ 0 b = 0.
Proof. rewrite ceilingQ_div. change (- 0) with 0. now rewrite Zdiv_0_l. Qed.

Lemma ceil_unsigned a b : 0 < a -> 0 < b -> ceilingQ a b = (a - 1) / b + 1.
Proof.
  intros Ha Hb. rewrite ceilingQ_div, div_neg_pos by assumption. lia.
Qed.

Lemma ceil_unsigned_bounds a b : 0 <= a -> 0 < b -> 0 <= ceilingQ a b <= a.
Proof.
  intros Ha Hb.
  destruct (Z.eq_dec a 0) as [-> | Hne].
  - rewrite ceil_zero. lia.
  - rewrite ceil_unsigned by lia.
    pose proof (Z.div_mod (a - 1) b ltac:(lia)).
    pose proof (Z.mod_pos_bound (a - 1) b Hb). nia.
Qed.

(* ================================================================== *)
(** * The integer division expansions *)

(** The sign tests of the goal, on representable numbers. *)
Ltac sign_tests w :=
  rewrite ?(cmpi_slt_0 w), ?(cmpi_sgt_0 w) by (assumption || lia).

(** One signed division of the goal: the truncated quotient when the
    operands are representable and do not overflow, some value otherwise. *)
Ltac divsi_step w :=
  match goal with
  | |- context [evalIntBinary ?o divsi w (wrap w ?x) (wrap w ?y)] =>
      first
        [ rewrite (divsi_wrap o w) by (assumption || lia)
        | let q := fresh "q" in
          let Hq := fresh "Hq" in
          first
            [ destruct (divsi_value_other o w (wrap w x) y) as [q Hq];
              [ assumption || lia .. | rewrite Hq ]
            | destruct (divsi_value o w ltac:(assumption) (wrap w x) y) as [q Hq];
              [ assumption || lia | assumption || lia | eauto | rewrite Hq ] ] ]
  end.

Ltac eval_step w :=
  rewrite ?(subi_wrap _ w), ?(addi_wrap _ w) by assumption;
  cbn -[Z.sub Z.add Z.opp Z.quot Z.div].

Ltac eval_rest :=
  repeat (progress (unfold evalIntBinary, i1ToBool;
                    cbn -[Z.sub Z.add Z.opp Z.quot Z.div])).

Ltac signed_constants w :=
  let H := fresh "Hone" in
  assert (H : MIN w <= -1 /\ 1 <= MAX w /\ MIN w = - MAX w - 1)
    by (unfold MIN, MAX; pow2 w; pow2 (w - 1); lia).

(** The signed ceiling-division expansion is the ceiling of [a/b] for every
    dividend above [MIN_w], whatever value the target's division gives on
    overflow. *)
Lemma CeilDivSI_expansion_above_MIN (ov : Z -> Z) (w a b : Z) :
  2 <= w -> MIN w < a <= MAX w -> MIN w <= b <= MAX w -> b <> 0 ->
  evalExpansion (fun w => Some (ov w)) CeilDivSIOpConverter ceildivsi
    (i w) (ofSigned w a) (ofSigned w b) = Some (ofSigned w (ceilingQ a b))
  /\ MIN w <= ceilingQ a b <= MAX w.
Proof.
  intros Hw Ha Hb Hb0. rewrite ceilingQ_div.
  split; [ | apply ceil_bounds; trivial; lia ].
  assert (Hw1 : 1 <= w) by lia.
  signed_constants w.
  unfold evalExpansion, rewriteRoot, ofSigned. cbn.
  sign_tests w.
  destruct (Z.ltb_spec a 0), (Z.ltb_spec 0 a), (Z.ltb_spec b 0), (Z.ltb_spec 0 b);
    try lia; cbn -[Z.sub Z.add Z.opp].
  all: repeat (eval_step w; divsi_step w).
  all: repeat (progress (eval_step w)).
  all: eval_rest.
  all: do 4 apply f_equal.
  all: rewrite ?Z.sub_0_l.
  all: first [ apply ceil_pos_pos | apply ceil_neg_neg | apply ceil_other_sign ];
    lia.
Qed.

(** At the dividend [MIN_w] and a divisor of at least 2 the negation
    [0 - a] wraps back to [MIN_w], and the expansion yields the opposite of
    the ceiling, a positive number where the ceiling is negative. *)
Lemma CeilDivSI_expansion_at_MIN (ovf : Z -> option Z) (w b : Z) :
  2 <= w -> 2 <= b <= MAX w ->
  evalExpansion ovf CeilDivSIOpConverter ceildivsi
    (i w) (ofSigned w (MIN w)) (ofSigned w b)
  = Some (ofSigned w (- ceilingQ (MIN w) b))
  /\ MIN w < ceilingQ (MIN w) b < 0.
Proof.
  intros Hw Hb. rewrite ceilingQ_div.
  assert (Hw1 : 1 <= w) by lia.
  signed_constants w.
  assert (Hq : 0 < (- MIN w) / b < - MIN w).
  { split.
    - apply Z.div_str_pos. lia.
    - apply Z.div_lt; lia. }
  split; [ | lia ].
  unfold evalExpansion, rewriteRoot, ofSigned. cbn.
  sign_tests w.
  destruct (Z.ltb_spec (MIN w) 0), (Z.ltb_spec 0 (MIN w)),
    (Z.ltb_spec b 0), (Z.ltb_spec 0 b); try lia; cbn -[Z.sub Z.add Z.opp].
  eval_step w. rewrite wrap_opp_MIN by assumption.
  repeat (eval_step w; divsi_step w).
  repeat (progress (eval_step w)).
  eval_rest.
  do 4 apply f_equal.
  assert (E : Z.quot (MIN w) b = - ((- MIN w) / b)).
  { rewrite <- quot_nonneg_div by lia.
    rewrite <- Z.quot_opp_l by lia. f_equal. lia. }
  rewrite E. lia.
Qed.

(** C1.  The claim is that the signed ceiling-division expansion evaluates
    to the ceiling of [a/b] for all representable [a] and [b <> 0] other
    than [a = MIN_w, b = -1].  The expansion does not: at width 32 with
    [a = INT_MIN = -2^31] and [b = 2] it evaluates to [2^30], while the
    ceiling of [a/b] is [-2^30]; the two are different 32-bit values.  This
    holds whatever the target's division does on overflow (no division of
    this evaluation overflows). *)
Theorem CeilDivSI_expansion_INT_MIN (ovf : Z -> option Z) :
  evalExpansion ovf CeilDivSIOpConverter ceildivsi
    (i 32) (ofSigned 32 (-2147483648)) (ofSigned 32 2)
  = Some (ofSigned 32 1073741824)
  /\ ceilingQ (-2147483648) 2 = -1073741824
  /\ ofSigned 32 1073741824 <> ofSigned 32 (-1073741824).
Proof.
  split; [ | split ].
  - vm_compute. reflexivity.
  - vm_compute. reflexivity.
  - vm_compute. discriminate.
Qed.

(** The same on an exhaustive-test width: at 4 bits, [-8 / 3] expands to
    [2] where the ceiling is [-2]. *)
Example CeilDivSI_expansion_4bit (ovf : Z -> option Z) :
  evalExpansion ovf CeilDivSIOpConverter ceildivsi
    (i 4) (ofSigned 4 (-8)) (ofSigned 4 3) = Some (ofSigned 4 2)
  /\ ceilingQ (-8) 3 = -2.
Proof. vm_compute. split; reflexivity. Qed.

(** On a target whose signed division yields some value on overflow: for
    every width [w >= 2] and all signed [a], [b] of that width with
    [b <> 0] and not [(a = MIN_w and b = -1)], the signed floor-division
    expansion evaluates to the floor of the rational [a/b], which is
    representable, whatever the value of the overflowing division. *)
Theorem FloorDivSI_expansion_floor (ov : Z -> Z) (w a b : Z) :
  2 <= w -> MIN w <= a <= MAX w -> MIN w <= b <= MAX w ->
  b <> 0 -> ~ (a = MIN w /\ b = -1) ->
  evalExpansion (fun w => Some (ov w)) FloorDivSIOpConverter floordivsi
    (i w) (ofSigned w a) (ofSigned w b) = Some (ofSigned w (floorQ a b))
  /\ MIN w <= floorQ a b <= MAX w.
Proof.
  intros Hw Ha Hb Hb0 Hov. rewrite floorQ_div.
  split; [ | apply div_bounds; trivial; lia ].
  assert (Hw1 : 1 <= w) by lia.
  signed_constants w.
  unfold evalExpansion, rewriteRoot, ofSigned. cbn.
  sign_tests w.
  destruct (Z.ltb_spec a 0), (Z.ltb_spec 0 a), (Z.ltb_spec b 0), (Z.ltb_spec 0 b);
    try lia; cbn -[Z.sub Z.add Z.opp].
  all: repeat (eval_step w; divsi_step w).
  all: repeat (progress (eval_step w)).
  all: eval_rest.
  all: do 4 apply f_equal.
  all: first [ apply floor_neg_pos | apply floor_pos_neg | apply floor_same_sign ];
    lia.
Qed.

Lemma FloorDivSI_expansion_floor_witness :
  (2 <= 32 /\ MIN 32 <= -7 <= MAX 32 /\ MIN 32 <= 2 <= MAX 32 /\
   2 <> 0 /\ ~ (-7 = MIN 32 /\ 2 = -1)) /\
  evalExpansion (fun w => Some 0) FloorDivSIOpConverter floordivsi
    (i 32) (ofSigned 32 (-7)) (ofSigned 32 2) = Some (ofSigned 32 (floorQ (-7) 2))
  /\ MIN 32 <= floorQ (-7) 2 <= MAX 32.
Proof.
  assert (H : 2 <= 32 /\ MIN 32 <= -7 <= MAX 32 /\ MIN 32 <= 2 <= MAX 32 /\
              2 <> 0 /\ ~ (-7 = MIN 32 /\ 2 = -1))
    by (vm_compute; intuition discriminate).
  split; [ exact H | ].
  destruct H as (H1 & H2 & H3 & H4 & H5).
  exact (FloorDivSI_expansion_floor (fun _ => 0) 32 (-7) 2 H1 H2 H3 H4 H5).
Defined.

(** The expansion divides in both operands of its final [select].  At
    [a = MIN_w + 1], [b = -1] the operand that is not selected computes
    [x - a = MIN_w] and divides it by [-1]: on a target whose division gives
    no value there, the expansion gives none, although the floor is
    [MAX_w]. *)
Remark FloorDivSI_expansion_unselected_overflow :
  evalExpansion (fun _ => None) FloorDivSIOpConverter floordivsi
    (i 32) (ofSigned 32 (-2147483647)) (ofSigned 32 (-1)) = None
  /\ floorQ (-2147483647) (-1) = 2147483647.
Proof. split; vm_compute; reflexivity. Qed.

(** Likewise for the ceiling at [a = MAX_w], [b = -1], where [x + a] wraps
    to [MIN_w]. *)
Remark CeilDivSI_expansion_unselected_overflow :
  evalExpansion (fun _ => None) CeilDivSIOpConverter ceildivsi
    (i 32) (ofSigned 32 2147483647) (ofSigned 32 (-1)) = None
  /\ ceilingQ 2147483647 (-1) = -2147483647.
Proof. split; vm_compute; reflexivity. Qed.

(** The unsigned ceiling-division expansion on unsigned operands. *)
Lemma CeilDivUI_eval (ovf : Z -> option Z) (w a b : Z) :
  1 <= w -> 0 <= a <= UMAX w -> 0 < b <= UMAX w ->
  evalExpansion ovf CeilDivUIOpConverter ceildivui
    (i w) (ofUnsigned w a) (ofUnsigned w b) = Some (ofUnsigned w (ceilingQ a b)).
Proof.
  unfold UMAX. intros Hw Ha Hb.
  unfold evalExpansion, rewriteRoot, ofUnsigned. cbn.
  rewrite (wrap_small w a), (wrap_small w b), (wrap_0 w) by lia.
  rewrite (wrap_1 w) by assumption.
  assert (Hd : forall x, evalIntBinary ovf divui w x b = Some (x / b)).
  { intros x. unfold evalIntBinary.
    destruct (Z.eqb_spec b 0); [ lia | reflexivity ]. }
  assert (Hs : forall x y, evalIntBinary ovf subi w x y = Some (wrap w (x - y)))
    by reflexivity.
  assert (Hp : forall x y, evalIntBinary ovf addi w x y = Some (wrap w (x + y)))
    by reflexivity.
  unfold evalCmpI, i1ToBool.
  destruct (Z.eqb_spec a 0) as [-> | Hne];
    repeat (progress (rewrite ?Hd, ?Hs, ?Hp; cbn -[Z.sub Z.add Z.div])).
  - now rewrite ceil_zero, wrap_0.
  - rewrite (wrap_small w (a - 1)) by lia.
    rewrite ceil_unsigned by lia. reflexivity.
Qed.

(** C3.  For every width [w >= 2] and all unsigned [a], [b] of that width
    with [b <> 0], the unsigned ceiling-division expansion evaluates to the
    ceiling of [a/b], which is representable; in particular [a = 0] yields
    [0], and [a = UMAX], [b = 2] yields [2^(w-1)]. *)
Theorem CeilDivUI_expansion_ceiling (ovf : Z -> option Z) (w : Z) :
  2 <= w ->
  (forall a b, 0 <= a <= UMAX w -> 0 < b <= UMAX w ->
     evalExpansion ovf CeilDivUIOpConverter ceildivui
       (i w) (ofUnsigned w a) (ofUnsigned w b) = Some (ofUnsigned w (ceilingQ a b))
     /\ 0 <= ceilingQ a b <= UMAX w) /\
  (forall b, 0 < b <= UMAX w ->
     evalExpansion ovf CeilDivUIOpConverter ceildivui
       (i w) (ofUnsigned w 0) (ofUnsigned w b) = Some (ofUnsigned w 0)) /\
  evalExpansion ovf CeilDivUIOpConverter ceildivui
    (i w) (ofUnsigned w (UMAX w)) (ofUnsigned w 2) = Some (ofUnsigned w (2 ^ (w - 1))).
Proof.
  intros Hw. assert (Hw1 : 1 <= w) by lia.
  assert (Hu : 3 <= UMAX w) by (unfold UMAX; pow2 w; pow2 (w - 1); lia).
  split; [ | split ].
  - intros a b Ha Hb. split.
    + apply CeilDivUI_eval; assumption.
    + pose proof (ceil_unsigned_bounds a b). lia.
  - intros b Hb. rewrite CeilDivUI_eval by lia. now rewrite ceil_zero.
  - rewrite CeilDivUI_eval by lia.
    rewrite ceil_unsigned by lia. do 2 apply f_equal.
    unfold UMAX. pow2 w.
    replace (2 ^ w - 1 - 1) with (2 ^ (w - 1) * 2 + (- 2)) by lia.
    rewrite Z.div_add_l by lia. change (-2 / 2) with (-1). lia.
Qed.

Lemma CeilDivUI_expansion_ceiling_witness :
  2 <= 32 /\
  evalExpansion (fun _ => None) CeilDivUIOpConverter ceildivui
    (i 32) (ofUnsigned 32 4294967295) (ofUnsigned 32 2)
  = Some (ofUnsigned 32 2147483648).
Proof.
  assert (H : 2 <= 32) by lia.
  split; [ exact H | ].
  exact (proj2 (proj2 (CeilDivUI_expansion_ceiling (fun _ => None) 32 H))).
Defined.

Example CeilDivSI_scenarios (ovf : Z -> option Z) :
  evalExpansion ovf CeilDivSIOpConverter ceildivsi (i 32) (ofSigned 32 7) (ofSigned 32 2)
    = Some (ofSigned 32 4) /\
  evalExpansion ovf CeilDivSIOpConverter ceildivsi (i 32) (ofSigned 32 (-7)) (ofSigned 32 2)
    = Some (ofSigned 32 (-3)) /\
  evalExpansion ovf CeilDivSIOpConverter ceildivsi (i 32) (ofSigned 32 7) (ofSigned 32 (-2))
    = Some (ofSigned 32 (-3)) /\
  evalExpansion ovf CeilDivSIOpConverter ceildivsi (i 32) (ofSigned 32 (-7)) (ofSigned 32 (-2))
    = Some (ofSigned 32 4).
Proof. vm_compute. repeat split. Qed.

Example FloorDivSI_scenarios (ovf : Z -> option Z) :
  evalExpansion ovf FloorDivSIOpConverter floordivsi (i 32) (ofSigned 32 7) (ofSigned 32 2)
    = Some (ofSigned 32 3) /\
  evalExpansion ovf FloorDivSIOpConverter floordivsi (i 32) (ofSigned 32 (-7)) (ofSigned 32 2)
    = Some (ofSigned 32 (-4)) /\
  evalExpansion ovf FloorDivSIOpConverter floordivsi (i 32) (ofSigned 32 7) (ofSigned 32 (-2))
    = Some (ofSigned 32 (-4)) /\
  evalExpansion ovf FloorDivSIOpConverter floordivsi (i 32) (ofSigned 32 (-7)) (ofSigned 32 (-2))
    = Some (ofSigned 32 3).
Proof. vm_compute. repeat split. Qed.

(* ================================================================== *)
(** * The integer min/max expansion *)

Lemma i1_roundtrip (c : bool) : i1ToBool (if c then 1 else 0) = c.
Proof. destruct c; reflexivity. Qed.

Lemma BinaryOpName_eqb_refl n : BinaryOpName_eqb n n = true.
Proof. destruct n; reflexivity. Qed.

Section MinMaxInt.
Variable ovf : Z -> option Z.
Variable w : Z.
Hypothesis Hw : 1 <= w.

(** The expansion evaluates to the operand that the comparison of the bit
    patterns picks. *)
Lemma MaxMinI_eval OpTy pred a b :
  evalExpansion ovf (MaxMinIOpConverter OpTy pred) OpTy (i w)
    (RScalar (DInt a)) (RScalar (DInt b))
  = Some (RScalar (DInt (if evalCmpI pred w a b then a else b))).
Proof.
  unfold evalExpansion, rewriteRoot. cbn.
  rewrite BinaryOpName_eqb_refl. cbn. rewrite i1_roundtrip.
  destruct (evalCmpI pred w a b); reflexivity.
Qed.

Lemma cmpi_signed pred l r :
  MIN w <= l <= MAX w -> MIN w <= r <= MAX w ->
  evalCmpI pred w (wrap w l) (wrap w r) =
  match pred with
  | CmpIPredicate.sgt => r <? l
  | CmpIPredicate.slt => l <? r
  | _ => evalCmpI pred w (wrap w l) (wrap w r)
  end.
Proof.
  intros Hl Hr. destruct pred; try reflexivity; unfold evalCmpI;
    rewrite !signed_wrap by assumption; trivial.
  apply Z.gtb_ltb.
Qed.

Lemma cmpi_unsigned pred l r :
  0 <= l <= UMAX w -> 0 <= r <= UMAX w ->
  evalCmpI pred w (wrap w l) (wrap w r) =
  match pred with
  | CmpIPredicate.ugt => r <? l
  | CmpIPredicate.ult => l <? r
  | _ => evalCmpI pred w (wrap w l) (wrap w r)
  end.
Proof.
  unfold UMAX. intros Hl Hr. destruct pred; try reflexivity; unfold evalCmpI;
    rewrite !wrap_small by lia; trivial.
  apply Z.gtb_ltb.
Qed.
End MinMaxInt.

(** C5.  For each of the four registered integer min/max instantiations
    (signed max with signed-greater, unsigned max with unsigned-greater,
    signed min with signed-less, unsigned min with unsigned-less) and every
    pair of operands of width [w], the expansion evaluates to [lhs] when the
    instantiation's comparison of [lhs] with [rhs] holds and to [rhs] when
    it does not. *)
Theorem MaxMinI_expansion_select (ovf : Z -> option Z) (w lhs rhs : Z) :
  1 <= w ->
  (MIN w <= lhs <= MAX w -> MIN w <= rhs <= MAX w ->
   evalExpansion ovf (MaxMinIOpConverter maxsi CmpIPredicate.sgt) maxsi (i w)
     (ofSigned w lhs) (ofSigned w rhs)
   = Some (ofSigned w (if rhs <? lhs then lhs else rhs)) /\
   evalExpansion ovf (MaxMinIOpConverter minsi CmpIPredicate.slt) minsi (i w)
     (ofSigned w lhs) (ofSigned w rhs)
   = Some (ofSigned w (if lhs <? rhs then lhs else rhs))) /\
  (0 <= lhs <= UMAX w -> 0 <= rhs <= UMAX w ->
   evalExpansion ovf (MaxMinIOpConverter maxui CmpIPredicate.ugt) maxui (i w)
     (ofUnsigned w lhs) (ofUnsigned w rhs)
   = Some (ofUnsigned w (if rhs <? lhs then lhs else rhs)) /\
   evalExpansion ovf (MaxMinIOpConverter minui CmpIPredicate.ult) minui (i w)
     (ofUnsigned w lhs) (ofUnsigned w rhs)
   = Some (ofUnsigned w (if lhs <? rhs then lhs else rhs))) /\
  incl [ MaxMinIOpConverter maxsi CmpIPredicate.sgt;
         MaxMinIOpConverter maxui CmpIPredicate.ugt;
         MaxMinIOpConverter minsi CmpIPredicate.slt;
         MaxMinIOpConverter minui CmpIPredicate.ult ]
       (populateArithmeticExpandOpsPatterns []).
Proof.
  intros Hw. unfold ofSigned, ofUnsigned.
  split; [ | split ].
  - intros Hl Hr.
    rewrite !MaxMinI_eval, !cmpi_signed by assumption.
    split; [ destruct (rhs <? lhs) | destruct (lhs <? rhs) ]; reflexivity.
  - intros Hl Hr.
    rewrite !MaxMinI_eval, !cmpi_unsigned by assumption.
    split; [ destruct (rhs <? lhs) | destruct (lhs <? rhs) ]; reflexivity.
  - intros p Hp. simpl in Hp. simpl. tauto.
Qed.

Lemma MaxMinI_expansion_select_witness :
  (1 <= 32 /\ MIN 32 <= -1 <= MAX 32 /\ MIN 32 <= 2147483647 <= MAX 32) /\
  evalExpansion (fun _ => None) (MaxMinIOpConverter maxsi CmpIPredicate.sgt)
    maxsi (i 32) (ofSigned 32 (-1)) (ofSigned 32 2147483647)
  = Some (ofSigned 32 2147483647).
Proof.
  assert (H : 1 <= 32 /\ MIN 32 <= -1 <= MAX 32 /\ MIN 32 <= 2147483647 <= MAX 32)
    by (vm_compute; intuition discriminate).
  split; [ exact H | ].
  destruct H as (H1 & H2 & H3).
  exact (proj1 (proj1 (MaxMinI_expansion_select (fun _ => None) 32 (-1)
                         2147483647 H1) H2 H3)).
Defined.

Example MaxUI_scenario (ovf : Z -> option Z) :
  evalExpansion ovf (MaxMinIOpConverter maxui CmpIPredicate.ugt) maxui (i 32)
    (ofSigned 32 (-1)) (ofUnsigned 32 1) = Some (ofSigned 32 (-1))
  /\ ofSigned 32 (-1) = ofUnsigned 32 (UMAX 32).
Proof. vm_compute. split; reflexivity. Qed.

(** For operands that differ, the result is [lhs] exactly when the
    comparison holds; for equal operands the result is both. *)
Lemma MaxSI_expansion_lhs_iff (ovf : Z -> option Z) (w lhs rhs : Z) :
  1 <= w -> MIN w <= lhs <= MAX w -> MIN w <= rhs <= MAX w -> lhs <> rhs ->
  evalExpansion ovf (MaxMinIOpConverter maxsi CmpIPredicate.sgt) maxsi (i w)
    (ofSigned w lhs) (ofSigned w rhs) = Some (ofSigned w lhs)
  <-> rhs < lhs.
Proof.
  intros Hw Hl Hr Hne. unfold ofSigned.
  rewrite MaxMinI_eval, cmpi_signed by assumption.
  destruct (Z.ltb_spec rhs lhs) as [Hlt | Hge]; split; trivial; intros H.
  - injection H as H. apply wrap_inj in H; trivial; lia.
  - lia.
Qed.

(* ================================================================== *)
(** * The float min/max expansion *)

(** Two floats are unordered exactly when one of them is a NaN. *)
Lemma unordered_isNaN x y :
  evalCmpF CmpFPredicate.UNO x y = isNaN x || isNaN y.
Proof.
  unfold evalCmpF, compareAPFloat, to_spec_float, isNaN.
  destruct (data x), (data y); reflexivity.
Qed.

Lemma OGT_orderedGreater x y :
  evalCmpF CmpFPredicate.OGT x y = orderedGreater x y.
Proof.
  unfold evalCmpF, orderedGreater.
  destruct (compareAPFloat x y) as [[] | ]; reflexivity.
Qed.

Lemma OLT_orderedLess x y :
  evalCmpF CmpFPredicate.OLT x y = orderedLess x y.
Proof.
  unfold evalCmpF, orderedLess.
  destruct (compareAPFloat x y) as [[] | ]; reflexivity.
Qed.

Lemma maxMinF_element_OGT sem x y :
  maxMinF_element CmpFPredicate.OGT sem x y
  = MinMaxFloat_contract orderedGreater sem x y.
Proof.
  unfold maxMinF_element, MinMaxFloat_contract.
  now rewrite unordered_isNaN, OGT_orderedGreater.
Qed.

Lemma maxMinF_element_OLT sem x y :
  maxMinF_element CmpFPredicate.OLT sem x y
  = MinMaxFloat_contract orderedLess sem x y.
Proof.
  unfold maxMinF_element, MinMaxFloat_contract.
  now rewrite unordered_isNaN, OLT_orderedLess.
Qed.

Lemma zipWith_ext {A B C} (f g : A -> B -> C) xs ys :
  (forall x y, f x y = g x y) -> zipWith f xs ys = zipWith g xs ys.
Proof.
  intros E. revert ys.
  induction xs as [ | x xs IH]; intros [ | y ys]; simpl; trivial.
  now rewrite E, IH.
Qed.

Lemma zipWith_length {A B C} (f : A -> B -> C) xs ys :
  length xs = length ys -> length (zipWith f xs ys) = length xs.
Proof.
  revert ys.
  induction xs as [ | x xs IH]; intros [ | y ys]; simpl; intros H;
    try discriminate; trivial.
  now rewrite IH by (injection H; trivial).
Qed.

Lemma zipWith_nth_error {A B C} (f : A -> B -> C) xs ys n x y :
  nth_error xs n = Some x -> nth_error ys n = Some y ->
  nth_error (zipWith f xs ys) n = Some (f x y).
Proof.
  revert ys n.
  induction xs as [ | x' xs IH]; intros [ | y' ys] [ | n]; simpl;
    try discriminate.
  - now intros [= ->] [= ->].
  - apply IH.
Qed.

Lemma map_repeat {A B} (f : A -> B) x n : map f (repeat x n) = repeat (f x) n.
Proof. induction n; simpl; congruence. Qed.

Section Elementwise.
Variable sem : fltSemantics.

Lemma cmpf_elements pred ls rs :
  length ls = length rs ->
  zipWith2 (evalCmpFDatum pred (FloatType sem)) (map DFloat ls) (map DFloat rs)
  = Some (map boolToI1 (zipWith (evalCmpF pred) ls rs)).
Proof.
  revert rs.
  induction ls as [ | l ls IH]; intros [ | r rs]; simpl; intros H;
    try discriminate; trivial.
  now rewrite IH by (injection H; trivial).
Qed.

Lemma select_elements (cs : list bool) (ts fs : list APFloat) :
  length cs = length ts -> length ts = length fs ->
  zipWith3 selectDatum (map boolToI1 cs) (map DFloat ts) (map DFloat fs)
  = Some (map DFloat (zipWith pickElement cs (combine ts fs))).
Proof.
  revert ts fs.
  induction cs as [ | c cs IH]; intros [ | t ts] [ | f fs]; simpl;
    intros H1 H2; try discriminate; trivial.
  rewrite IH by (injection H1; injection H2; trivial).
  simpl. rewrite i1_roundtrip. destruct c; reflexivity.
Qed.

Lemma maxMinF_elements pred (ls rs : list APFloat) n :
  length ls = n -> length rs = n ->
  zipWith pickElement
    (zipWith (evalCmpF CmpFPredicate.UNO) ls rs)
    (combine (repeat (getQNaN sem) n)
       (zipWith pickElement (zipWith (evalCmpF pred) ls rs) (combine ls rs)))
  = zipWith (maxMinF_element pred sem) ls rs.
Proof.
  revert rs n.
  induction ls as [ | l ls IH]; intros [ | r rs] [ | n]; simpl;
    intros H1 H2; try discriminate; trivial.
  rewrite IH by (injection H1; injection H2; trivial).
  reflexivity.
Qed.
End Elementwise.

Lemma MaxMinF_eval_scalar ovf OpTy pred sem lhs rhs :
  evalExpansion ovf (MaxMinFOpConverter OpTy pred) OpTy
    (Scalar (FloatType sem)) (ofFloat lhs) (ofFloat rhs)
  = Some (ofFloat (maxMinF_element pred sem lhs rhs)).
Proof.
  unfold evalExpansion, rewriteRoot. cbn.
  rewrite BinaryOpName_eqb_refl. cbn.
  rewrite !i1_roundtrip. unfold maxMinF_element.
  change (match compareAPFloat lhs rhs with Some _ => false | None => true end)
    with (evalCmpF CmpFPredicate.UNO lhs rhs).
  destruct (evalCmpF pred lhs rhs), (evalCmpF CmpFPredicate.UNO lhs rhs);
    reflexivity.
Qed.

Lemma MaxMinF_eval_vector ovf OpTy pred sem shape lhs rhs :
  length lhs = getNumElements shape -> length rhs = getNumElements shape ->
  evalExpansion ovf (MaxMinFOpConverter OpTy pred) OpTy
    (VectorType shape (FloatType sem)) (ofFloats lhs) (ofFloats rhs)
  = Some (ofFloats (zipWith (maxMinF_element pred sem) lhs rhs)).
Proof.
  intros Hl Hr.
  assert (Hlr : length lhs = length rhs) by congruence.
  unfold evalExpansion, rewriteRoot, ofFloats. cbn.
  rewrite BinaryOpName_eqb_refl. cbn.
  rewrite !cmpf_elements by assumption. cbn.
  rewrite select_elements by (rewrite ?zipWith_length; congruence). cbn.
  rewrite <- map_repeat.
  rewrite select_elements.
  - cbn. now rewrite (maxMinF_elements sem pred lhs rhs (getNumElements shape)).
  - rewrite zipWith_length, repeat_length; congruence.
  - rewrite repeat_length, zipWith_length.
    + rewrite zipWith_length; congruence.
    + rewrite zipWith_length, length_combine by congruence. lia.
Qed.

(** C4.  For the two registered float expansions (max with ordered-greater,
    min with ordered-less) and every pair of float operands: when either
    operand is a NaN the result is the quiet NaN of the operands' float
    type, and otherwise it is [lhs] when the ordered comparison holds and
    [rhs] when it does not.  On vectors the same holds element by element:
    the result is the vector of the contract's values. *)
Theorem MaxMinF_expansion_contract (ovf : Z -> option Z) (sem : fltSemantics) :
  (forall lhs rhs,
     let max := evalExpansion ovf (MaxMinFOpConverter maxf CmpFPredicate.OGT)
                  maxf (Scalar (FloatType sem)) (ofFloat lhs) (ofFloat rhs) in
     let min := evalExpansion ovf (MaxMinFOpConverter minf CmpFPredicate.OLT)
                  minf (Scalar (FloatType sem)) (ofFloat lhs) (ofFloat rhs) in
     (isNaN lhs = true \/ isNaN rhs = true ->
        max = Some (ofFloat (getQNaN sem)) /\
        min = Some (ofFloat (getQNaN sem))) /\
     (isNaN lhs = false /\ isNaN rhs = false ->
        max = Some (ofFloat (if orderedGreater lhs rhs then lhs else rhs)) /\
        min = Some (ofFloat (if orderedLess lhs rhs then lhs else rhs)))) /\
  (forall shape lhs rhs,
     length lhs = getNumElements shape -> length rhs = getNumElements shape ->
     evalExpansion ovf (MaxMinFOpConverter maxf CmpFPredicate.OGT) maxf
       (VectorType shape (FloatType sem)) (ofFloats lhs) (ofFloats rhs)
     = Some (ofFloats (zipWith (MinMaxFloat_contract orderedGreater sem) lhs rhs)) /\
     evalExpansion ovf (MaxMinFOpConverter minf CmpFPredicate.OLT) minf
       (VectorType shape (FloatType sem)) (ofFloats lhs) (ofFloats rhs)
     = Some (ofFloats (zipWith (MinMaxFloat_contract orderedLess sem) lhs rhs))) /\
  isQuietNaN (getQNaN sem) = true /\
  getSemantics (getQNaN sem) = sem /\
  incl [ MaxMinFOpConverter maxf CmpFPredicate.OGT;
         MaxMinFOpConverter minf CmpFPredicate.OLT ]
       (populateArithmeticExpandOpsPatterns []).
Proof.
  split; [ | split; [ | split; [ | split ] ] ]; try reflexivity.
  - intros lhs rhs max min. subst max min.
    rewrite !MaxMinF_eval_scalar, maxMinF_element_OGT, maxMinF_element_OLT.
    unfold MinMaxFloat_contract.
    split.
    + intros [H | H]; rewrite H, ?orb_true_r; split; reflexivity.
    + intros [Hl Hr]. rewrite Hl, Hr. split; reflexivity.
  - intros shape lhs rhs Hl Hr.
    rewrite !MaxMinF_eval_vector by assumption.
    split; do 2 f_equal; apply zipWith_ext; intros x y.
    + apply maxMinF_element_OGT.
    + apply maxMinF_element_OLT.
  - intros p Hp. simpl in Hp. simpl. tauto.
Qed.

Lemma MaxMinF_expansion_contract_witness :
  (length [f32_1; f32_sNaN; f32_3; f32_4] = getNumElements [4%nat] /\
   length [f32_2; f32_2; f32_2; f32_2] = getNumElements [4%nat]) /\
  evalExpansion (fun _ => None) (MaxMinFOpConverter minf CmpFPredicate.OLT) minf
    (VectorType [4%nat] (FloatType IEEEsingle))
    (ofFloats [f32_1; f32_sNaN; f32_3; f32_4])
    (ofFloats [f32_2; f32_2; f32_2; f32_2])
  = Some (ofFloats [f32_1; getQNaN IEEEsingle; f32_2; f32_2]).
Proof.
  assert (H : length [f32_1; f32_sNaN; f32_3; f32_4] = getNumElements [4%nat] /\
              length [f32_2; f32_2; f32_2; f32_2] = getNumElements [4%nat])
    by (split; reflexivity).
  split; [ exact H | ].
  destruct H as (H1 & H2).
  exact (proj2 (proj1 (proj2 (MaxMinF_expansion_contract (fun _ => None)
                                IEEEsingle)) [4%nat] _ _ H1 H2)).
Defined.

Example MaxF_scenarios (ovf : Z -> option Z) :
  evalExpansion ovf (MaxMinFOpConverter maxf CmpFPredicate.OGT) maxf
    (Scalar (FloatType IEEEsingle)) (ofFloat f32_1) (ofFloat f32_2)
  = Some (ofFloat f32_2) /\
  evalExpansion ovf (MaxMinFOpConverter maxf CmpFPredicate.OGT) maxf
    (Scalar (FloatType IEEEsingle)) (ofFloat f32_sNaN) (ofFloat f32_2)
  = Some (ofFloat (getQNaN IEEEsingle)).
Proof. vm_compute. split; reflexivity. Qed.

(** C10.  When neither operand is a NaN and the two compare equal, the
    strict ordered comparison of either expansion is false and the result
    is [rhs]; so max and min of [(+0, -0)] are both [-0], and max and min of
    [(-0, +0)] are both [+0]. *)
Theorem MaxMinF_expansion_tie (ovf : Z -> option Z) (sem : fltSemantics) :
  (forall lhs rhs,
     compareAPFloat lhs rhs = Some Eq ->
     isNaN lhs = false /\ isNaN rhs = false /\
     evalCmpF CmpFPredicate.OGT lhs rhs = false /\
     evalCmpF CmpFPredicate.OLT lhs rhs = false /\
     evalExpansion ovf (MaxMinFOpConverter maxf CmpFPredicate.OGT) maxf
       (Scalar (FloatType sem)) (ofFloat lhs) (ofFloat rhs) = Some (ofFloat rhs) /\
     evalExpansion ovf (MaxMinFOpConverter minf CmpFPredicate.OLT) minf
       (Scalar (FloatType sem)) (ofFloat lhs) (ofFloat rhs) = Some (ofFloat rhs)) /\
  evalExpansion ovf (MaxMinFOpConverter maxf CmpFPredicate.OGT) maxf
    (Scalar (FloatType sem)) (ofFloat (posZero sem)) (ofFloat (negZero sem))
  = Some (ofFloat (negZero sem)) /\
  evalExpansion ovf (MaxMinFOpConverter minf CmpFPredicate.OLT) minf
    (Scalar (FloatType sem)) (ofFloat (posZero sem)) (ofFloat (negZero sem))
  = Some (ofFloat (negZero sem)) /\
  evalExpansion ovf (MaxMinFOpConverter maxf CmpFPredicate.OGT) maxf
    (Scalar (FloatType sem)) (ofFloat (negZero sem)) (ofFloat (posZero sem))
  = Some (ofFloat (posZero sem)) /\
  evalExpansion ovf (MaxMinFOpConverter minf CmpFPredicate.OLT) minf
    (Scalar (FloatType sem)) (ofFloat (negZero sem)) (ofFloat (posZero sem))
  = Some (ofFloat (posZero sem)).
Proof.
  split; [ | repeat split; rewrite MaxMinF_eval_scalar; reflexivity ].
  intros lhs rhs E.
  assert (Hn : isNaN lhs || isNaN rhs = false).
  { rewrite <- unordered_isNaN. unfold evalCmpF. now rewrite E. }
  apply orb_false_elim in Hn. destruct Hn as [Hl Hr].
  rewrite !MaxMinF_eval_scalar. unfold maxMinF_element, evalCmpF.
  rewrite E. repeat split; assumption.
Qed.

Lemma MaxMinF_expansion_tie_witness :
  compareAPFloat (posZero IEEEdouble) (negZero IEEEdouble) = Some Eq /\
  evalExpansion (fun _ => None) (MaxMinFOpConverter maxf CmpFPredicate.OGT) maxf
    (Scalar (FloatType IEEEdouble)) (ofFloat (posZero IEEEdouble))
    (ofFloat (negZero IEEEdouble))
  = Some (ofFloat (negZero IEEEdouble)).
Proof.
  assert (H : compareAPFloat (posZero IEEEdouble) (negZero IEEEdouble) = Some Eq)
    by reflexivity.
  split; [ exact H | ].
  exact (proj1 (proj2 (proj2 (proj2 (proj2
    (proj1 (MaxMinF_expansion_tie (fun _ => None) IEEEdouble) _ _ H)))))).
Defined.

(* ================================================================== *)
(** * The shape of the replacement graphs *)

(** Splits a successful rewrite by a registered pattern into its cases, with
    the root value and the created operations computed. *)
Ltac cases_of_type l :=
  let E := fresh "Etype" in
  destruct (getType l) as [ [ ? | ? ] | ? [ ? | ? ] ] eqn:E.

Ltac invert_rewrite Hp H :=
  unfold rewriteRoot in H;
  simpl in Hp;
  repeat (destruct Hp as [<- | Hp]); try contradiction;
  match type of H with
  | context [matchAndRewrite _ ?op] =>
      destruct op as [ ? | ? ? ? | ? ? ? | ? ? ? | ? ? | n l r ];
      try discriminate H;
      destruct n; try discriminate H;
      cbn in H;
      try (cases_of_type l; cbn in H; try discriminate H);
      injection H as <- <-
  end.

(** Every pattern is rooted at one of the nine expanded operations and
    returns failure, leaving the rewriter as it was, on any operation of
    another kind. *)
Lemma pattern_fails_on_other_ops p op rw :
  In p (populateArithmeticExpandOpsPatterns []) ->
  memName (getName op) expandedOps = false ->
  matchAndRewrite p op rw = Some (failure, rw).
Proof.
  intros Hp Hop. simpl in Hp.
  repeat (destruct Hp as [<- | Hp]); try contradiction;
    destruct op as [ ? | ? ? ? | ? ? ? | ? ? ? | ? ? | n l r ];
    try reflexivity; destruct n; try reflexivity; discriminate Hop.
Qed.

Ltac find_in :=
  match goal with
  | |- In ?x (?x :: _) => left; reflexivity
  | |- In _ (_ :: _) => right; find_in
  | |- In _ (_ ++ _) => apply in_or_app; first [ left; find_in | right; find_in ]
  end.


(** C6.  For every registered pattern and every operation it rewrites, the
    type of the replacement value is the result type of the replaced
    operation, vector shape included; each of the nine operations, when well
    typed, is rewritten by a registered pattern; and the float min/max
    pattern on operands of vector type broadcasts the scalar quiet-NaN
    constant to that vector type with a splat that is the operand of the
    final select (on a scalar type the constant itself is). *)
Theorem expansion_preserves_type :
  (forall p op root ops,
     In p (populateArithmeticExpandOpsPatterns []) ->
     rewriteRoot p op = Some (root, ops) ->
     getType root = getResultType op) /\
  (forall n l r,
     memName (arith n) expandedOps = true ->
     wellTyped (BinaryOp n l r) = true ->
     exists p root ops,
       In p (populateArithmeticExpandOpsPatterns []) /\
       rewriteRoot p (BinaryOp n l r) = Some (root, ops) /\
       getType root = getResultType (BinaryOp n l r)) /\
  (forall OpTy pred lhs rhs shape sem,
     getType lhs = VectorType shape (FloatType sem) ->
     let cmp := CmpFOp pred lhs rhs in
     let select := SelectOp (OpResult cmp) lhs rhs in
     let isNaN := CmpFOp CmpFPredicate.UNO lhs rhs in
     let nan := ConstantFloatOp (getQNaN sem) sem in
     let splat := SplatOp (VectorType shape (FloatType sem)) (OpResult nan) in
     let res := SelectOp (OpResult isNaN) (OpResult splat) (OpResult select) in
     rewriteRoot (MaxMinFOpConverter OpTy pred) (BinaryOp OpTy lhs rhs)
     = Some (OpResult res, [cmp; select; isNaN; nan; splat; res]) /\
     getType (OpResult nan) = Scalar (FloatType sem) /\
     getType (OpResult splat) = getType lhs) /\
  (forall OpTy pred lhs rhs sem,
     getType lhs = Scalar (FloatType sem) ->
     let cmp := CmpFOp pred lhs rhs in
     let select := SelectOp (OpResult cmp) lhs rhs in
     let isNaN := CmpFOp CmpFPredicate.UNO lhs rhs in
     let nan := ConstantFloatOp (getQNaN sem) sem in
     let res := SelectOp (OpResult isNaN) (OpResult nan) (OpResult select) in
     rewriteRoot (MaxMinFOpConverter OpTy pred) (BinaryOp OpTy lhs rhs)
     = Some (OpResult res, [cmp; select; isNaN; nan; res])).
Proof.
  split; [ | split; [ | split ] ].
  - intros p op root ops Hp H.
    invert_rewrite Hp H.
    all: try reflexivity.
    all: cbn; symmetry; assumption.
  - intros n l r Hn Hty.
    unfold wellTyped in Hty. apply andb_prop in Hty. destruct Hty as [_ Hty].
    destruct n; try discriminate Hn; cbn in Hty.
    all: match goal with
         | |- context [BinaryOp ?n _ _] =>
             match n with
             | ceildivsi => exists CeilDivSIOpConverter
             | ceildivui => exists CeilDivUIOpConverter
             | floordivsi => exists FloorDivSIOpConverter
             | maxf => exists (MaxMinFOpConverter maxf CmpFPredicate.OGT)
             | minf => exists (MaxMinFOpConverter minf CmpFPredicate.OLT)
             | maxsi => exists (MaxMinIOpConverter maxsi CmpIPredicate.sgt)
             | maxui => exists (MaxMinIOpConverter maxui CmpIPredicate.ugt)
             | minsi => exists (MaxMinIOpConverter minsi CmpIPredicate.slt)
             | minui => exists (MaxMinIOpConverter minui CmpIPredicate.ult)
             end
         end.
    all: unfold rewriteRoot; cbn.
    all: try (do 2 eexists; split; [ tauto | split; reflexivity ]).
    all: destruct (getType l) as [ [ ? | ? ] | ? [ ? | ? ] ] eqn:E;
      try discriminate Hty; cbn.
    all: do 2 eexists; split; [ tauto | split; [ reflexivity | ] ].
    all: cbn; rewrite ?E; reflexivity.
  - intros OpTy pred lhs rhs shape sem E. cbn zeta.
    unfold rewriteRoot. cbn.
    rewrite BinaryOpName_eqb_refl, E. cbn.
    repeat split.
  - intros OpTy pred lhs rhs sem E. cbn zeta.
    unfold rewriteRoot. cbn.
    rewrite BinaryOpName_eqb_refl, E. reflexivity.
Qed.

Lemma expansion_preserves_type_witness :
  exists root ops,
    In (MaxMinFOpConverter minf CmpFPredicate.OLT)
       (populateArithmeticExpandOpsPatterns []) /\
    rewriteRoot (MaxMinFOpConverter minf CmpFPredicate.OLT)
      (matchedOp minf (VectorType [4%nat] (FloatType IEEEsingle)))
    = Some (root, ops) /\
    getType root = VectorType [4%nat] (FloatType IEEEsingle).
Proof.
  assert (Hin : In (MaxMinFOpConverter minf CmpFPredicate.OLT)
                  (populateArithmeticExpandOpsPatterns []))
    by (simpl; tauto).
  do 2 eexists. split; [ exact Hin | ].
  split; [ reflexivity | ].
  exact (proj1 expansion_preserves_type _
           (matchedOp minf (VectorType [4%nat] (FloatType IEEEsingle)))
           _ _ Hin eq_refl).
Defined.

(** C7.  For every registered pattern and every operation it rewrites, each
    created operation is one of the expansion primitives (constant, add,
    sub, signed or unsigned divide, bitwise and/or, integer or float
    compare, select, splat) and none of the nine expanded operations; it is
    legal for the target the pass declares, and every registered pattern
    returns failure on it without touching the rewriter: a second run of the
    pass finds nothing to rewrite in a pattern's output.  The root is one of
    the created operations. *)
Theorem expansion_emits_only_primitives :
  forall p op root ops,
    In p (populateArithmeticExpandOpsPatterns []) ->
    rewriteRoot p op = Some (root, ops) ->
    Forall (fun o =>
              memName (getName o) expansionPrimitives = true /\
              memName (getName o) expandedOps = false /\
              isIllegal expandOpsTarget o = false /\
              isLegal expandOpsTarget o = true /\
              forall q rw,
                In q (populateArithmeticExpandOpsPatterns []) ->
                matchAndRewrite q o rw = Some (failure, rw)) ops /\
    exists o, root = OpResult o /\ In o ops.
Proof.
  intros p op root ops Hp H.
  invert_rewrite Hp H.
  all: split;
    [ repeat constructor; intros q rw Hq;
      apply pattern_fails_on_other_ops; trivial
    | eexists; split; [ reflexivity | simpl; tauto ] ].
Qed.

Lemma expansion_emits_only_primitives_witness :
  exists root ops,
    In CeilDivUIOpConverter (populateArithmeticExpandOpsPatterns []) /\
    rewriteRoot CeilDivUIOpConverter (matchedOp ceildivui (i 32)) = Some (root, ops) /\
    Forall (fun o => memName (getName o) expandedOps = false) ops /\
    length ops = 7%nat.
Proof.
  assert (Hin : In CeilDivUIOpConverter (populateArithmeticExpandOpsPatterns []))
    by (simpl; tauto).
  do 2 eexists. split; [ exact Hin | ].
  split; [ reflexivity | ].
  split; [ | reflexivity ].
  refine (Forall_impl _ _
            (proj1 (expansion_emits_only_primitives _
                      (matchedOp ceildivui (i 32)) _ _ Hin eq_refl))).
  intros o Ho. exact (proj1 (proj2 Ho)).
Defined.

(** C8.  No registered pattern creates a multiplication, and the condition
    of the final select of the signed ceiling- and floor-division expansions
    is the bitwise or of two bitwise ands of the comparisons [a < 0],
    [a > 0], [b < 0], [b > 0] with the zero constant: same signs for the
    ceiling, opposite signs for the floor. *)
Theorem expansion_emits_no_multiplication :
  (forall p op root ops,
     In p (populateArithmeticExpandOpsPatterns []) ->
     rewriteRoot p op = Some (root, ops) ->
     Forall (fun o => getName o <> arith muli) ops) /\
  (forall a b,
     let zero := OpResult (ConstantOp (getIntegerAttr (getType a) 0)) in
     let aNeg := OpResult (CmpIOp CmpIPredicate.slt a zero) in
     let aPos := OpResult (CmpIOp CmpIPredicate.sgt a zero) in
     let bNeg := OpResult (CmpIOp CmpIPredicate.slt b zero) in
     let bPos := OpResult (CmpIOp CmpIPredicate.sgt b zero) in
     rootCondition CeilDivSIOpConverter (CeilDivSIOp a b)
     = Some (OpResult (OrIOp (OpResult (AndIOp aNeg bNeg))
                             (OpResult (AndIOp aPos bPos)))) /\
     rootCondition FloorDivSIOpConverter (FloorDivSIOp a b)
     = Some (OpResult (OrIOp (OpResult (AndIOp aNeg bPos))
                             (OpResult (AndIOp aPos bNeg))))).
Proof.
  split.
  - intros p op root ops Hp H.
    invert_rewrite Hp H.
    all: repeat constructor; discriminate.
  - intros a b. cbn zeta. split; reflexivity.
Qed.

Lemma expansion_emits_no_multiplication_witness :
  exists root ops,
    In CeilDivUIOpConverter (populateArithmeticExpandOpsPatterns []) /\
    rewriteRoot CeilDivUIOpConverter (matchedOp ceildivui (i 32)) = Some (root, ops) /\
    Forall (fun o => getName o <> arith muli) ops.
Proof.
  assert (Hin : In CeilDivUIOpConverter (populateArithmeticExpandOpsPatterns []))
    by (simpl; tauto).
  do 2 eexists. split; [ exact Hin | ].
  split; [ reflexivity | ].
  exact (proj1 expansion_emits_no_multiplication _
           (matchedOp ceildivui (i 32)) _ _ Hin eq_refl).
Defined.

(* ================================================================== *)
(** * The pass *)

(** C9.  Run on a function [f] with the host's driver, the pass created by
    [createArithmeticExpandOpsPass] hands the driver the patterns that
    [populateArithmeticExpandOpsPatterns] registers and a target that marks
    the arithmetic and standard dialects legal and exactly the nine expanded
    operations illegal; the pass has failed afterwards exactly when the
    driver failed, and the function is what the driver left: the run changes
    nothing else, on success or on failure. *)
Theorem runOnFunction_spec
    (FuncOp : Type)
    (applyPartialConversion :
       FuncOp -> ConversionTarget -> RewritePatternSet -> LogicalResult * FuncOp)
    (f : FuncOp) :
  let patterns := populateArithmeticExpandOpsPatterns [] in
  let outcome := applyPartialConversion f expandOpsTarget patterns in
  let st := runOnFunction FuncOp applyPartialConversion
              (createArithmeticExpandOpsPass FuncOp f) in
  (passFailed FuncOp st = true <-> fst outcome = failure) /\
  getFunction FuncOp st = snd outcome /\
  legalDialects expandOpsTarget = [ArithmeticDialect; StandardOpsDialect] /\
  illegalOps expandOpsTarget = expandedOps /\
  NoDup expandedOps /\ length expandedOps = 9%nat /\
  (forall op, isIllegal expandOpsTarget op = true <-> In (getName op) expandedOps) /\
  (forall n, In n (map getRootKind patterns) <-> In n expandedOps).
Proof.
  cbn zeta. unfold runOnFunction, createArithmeticExpandOpsPass.
  change (addIllegalOp _ (addLegalDialect _ emptyTarget)) with expandOpsTarget.
  cbn [getFunction passFailed].
  destruct (applyPartialConversion f expandOpsTarget
              (populateArithmeticExpandOpsPatterns [])) as [result func].
  repeat split; trivial.
  - destruct result; cbn; intros H; trivial; discriminate H.
  - destruct result; cbn; intros H; trivial; discriminate H.
  - destruct result; reflexivity.
  - repeat constructor; simpl; intuition discriminate.
  - unfold isIllegal. intros H. apply existsb_exists in H.
    destruct H as (n & Hn & E).
    replace (getName op) with n; trivial.
    destruct (getName op) as [ | | | m | | ], n as [ | | | m' | | ];
      try discriminate E; trivial.
    destruct m, m'; try discriminate E; reflexivity.
  - unfold isIllegal. intros H. apply existsb_exists.
    exists (getName op). split; trivial.
    destruct (getName op) as [ | | | m | | ]; trivial.
    apply BinaryOpName_eqb_refl.
  - simpl. tauto.
  - simpl. tauto.
Qed.

(* ================================================================== *)
(** * The signed division expansions on every target *)

Lemma wrap_one_minus_succ_MIN w :
  1 <= w -> wrap w (1 - (MIN w + 1)) = wrap w (MIN w).
Proof.
  intros Hw. unfold MIN. pow2 w.
  rewrite wrap_small, wrap_neg by lia. lia.
Qed.

Lemma wrap_one_plus_MAX w :
  1 <= w -> wrap w (1 + MAX w) = wrap w (MIN w).
Proof.
  intros Hw. unfold MIN, MAX. pow2 w.
  rewrite wrap_small, wrap_neg by lia. lia.
Qed.

Lemma signed_0 w : 1 <= w -> signed w 0 = 0.
Proof.
  intros Hw. unfold signed. pow2 w.
  destruct (Z.ltb_spec 0 (2 ^ (w - 1))); lia.
Qed.

(** The one signed division that overflows. *)
Lemma divsi_overflow (ovf : Z -> option Z) w :
  2 <= w ->
  evalIntBinary ovf divsi w (wrap w (MIN w)) (wrap w (-1))
  = option_map (wrap w) (ovf w).
Proof.
  intros Hw. signed_constants w. unfold evalIntBinary.
  rewrite !signed_wrap by lia.
  rewrite Z.eqb_refl. reflexivity.
Qed.

(** One signed division of the goal when nothing is known of the target's
    overflow: the operands are representable and do not overflow, or the
    divisor is neither [0] nor [-1]. *)
Ltac divsi_safe_step w :=
  match goal with
  | |- context [evalIntBinary ?o divsi w (wrap w ?x) (wrap w ?y)] =>
      first
        [ rewrite (divsi_wrap o w) by (assumption || lia)
        | let q := fresh "q" in
          let Hq := fresh "Hq" in
          destruct (divsi_value_other o w (wrap w x) y) as [q Hq];
          [ assumption || lia .. | rewrite Hq ] ]
  end.

(** Away from [a = MIN_w + 1, b = -1] no division of the floor expansion
    overflows, and the expansion is the floor on every target. *)
Lemma FloorDivSI_expansion_safe (ovf : Z -> option Z) (w a b : Z) :
  2 <= w -> MIN w <= a <= MAX w -> MIN w <= b <= MAX w ->
  b <> 0 -> ~ (a = MIN w /\ b = -1) -> ~ (a = MIN w + 1 /\ b = -1) ->
  evalExpansion ovf FloorDivSIOpConverter floordivsi
    (i w) (ofSigned w a) (ofSigned w b) = Some (ofSigned w (floorQ a b)).
Proof.
  intros Hw Ha Hb Hb0 Hov Hov'. rewrite floorQ_div.
  assert (Hw1 : 1 <= w) by lia.
  signed_constants w.
  destruct (Z.eq_dec b (-1)) as [Eb | Eb].
  all: unfold evalExpansion, rewriteRoot, ofSigned; cbn.
  all: sign_tests w.
  all: destruct (Z.ltb_spec a 0), (Z.ltb_spec 0 a), (Z.ltb_spec b 0),
         (Z.ltb_spec 0 b); try lia; cbn -[Z.sub Z.add Z.opp].
  all: repeat (eval_step w; divsi_safe_step w).
  all: repeat (progress (eval_step w)).
  all: eval_rest.
  all: do 4 apply f_equal.
  all: first [ apply floor_neg_pos | apply floor_pos_neg | apply floor_same_sign ];
    lia.
Qed.

(** At [a = MIN_w + 1, b = -1] the operand that is not selected divides
    [MIN_w] by [-1]. *)
Lemma FloorDivSI_expansion_succ_MIN_minus_one (ovf : Z -> option Z) (w : Z) :
  2 <= w ->
  evalExpansion ovf FloorDivSIOpConverter floordivsi
    (i w) (ofSigned w (MIN w + 1)) (ofSigned w (-1))
  = option_map (fun _ => ofSigned w (floorQ (MIN w + 1) (-1))) (ovf w).
Proof.
  intros Hw. rewrite floorQ_div.
  assert (Hw1 : 1 <= w) by lia.
  signed_constants w.
  unfold evalExpansion, rewriteRoot, ofSigned. cbn.
  sign_tests w.
  destruct (Z.ltb_spec (MIN w + 1) 0), (Z.ltb_spec 0 (MIN w + 1));
    try lia; cbn -[Z.sub Z.add Z.opp].
  eval_step w. rewrite wrap_one_minus_succ_MIN by assumption.
  rewrite divsi_overflow by assumption.
  rewrite (divsi_wrap ovf w) by lia.
  destruct (ovf w) as [v | ]; [ | reflexivity ].
  cbn -[Z.sub Z.add Z.opp Z.quot Z.div].
  repeat (progress (eval_step w)).
  eval_rest.
  do 4 apply f_equal. apply floor_same_sign; lia.
Qed.

(** C2 (code defect).  The claim is that the signed floor-division
    expansion evaluates to the floor of [a/b] for all representable [a] and
    [b <> 0] other than [a = MIN_w, b = -1].  At width 32 with
    [a = INT_MIN + 1 = -2147483647] and [b = -1], which the claim admits,
    the floor is [INT_MAX = 2147483647]; but the expansion also computes the
    operand that its final select does not pick, [-1 - ((x - a) / b)], in
    which [x - a = 1 - a] wraps to [INT_MIN] and is divided by [-1].  The
    expansion therefore has a value only when that overflowing division has
    one on the target: on a target where it has none (it traps) the
    expansion has none, where the operation it replaces is defined. *)
Theorem FloorDivSI_expansion_INT_MIN_succ (ovf : Z -> option Z) :
  evalExpansion ovf FloorDivSIOpConverter floordivsi
    (i 32) (ofSigned 32 (-2147483647)) (ofSigned 32 (-1))
  = option_map (fun _ => ofSigned 32 2147483647) (ovf 32)
  /\ evalExpansion (fun _ => None) FloorDivSIOpConverter floordivsi
       (i 32) (ofSigned 32 (-2147483647)) (ofSigned 32 (-1)) = None
  /\ floorQ (-2147483647) (-1) = 2147483647
  /\ MIN 32 <= -2147483647 <= MAX 32 /\ MIN 32 <= -1 <= MAX 32
  /\ -2147483647 <> MIN 32.
Proof.
  split; [ | split; [ | split; [ | split; [ | split ] ] ] ].
  - pose proof (FloorDivSI_expansion_succ_MIN_minus_one ovf 32) as H.
    change (MIN 32 + 1) with (-2147483647) in H.
    rewrite H by lia.
    destruct (ovf 32); [ | reflexivity ].
    cbn [option_map]. do 2 apply f_equal. vm_compute. reflexivity.
  - vm_compute. reflexivity.
  - vm_compute. reflexivity.
  - vm_compute. split; discriminate.
  - vm_compute. split; discriminate.
  - vm_compute. discriminate.
Qed.

(** X2.  The signed floor-division expansion on any target, for all
    representable [a] and [b <> 0] other than [a = MIN_w, b = -1]: it
    evaluates to the floor of [a/b], except at [a = MIN_w + 1, b = -1],
    where the operand that the final select does not pick divides [MIN_w]
    by [-1]; there the expansion has the floor as its value exactly when
    that overflowing division has a value on the target, and has no value
    when it has none. *)
Theorem FloorDivSI_expansion_any_target (ovf : Z -> option Z) (w a b : Z) :
  2 <= w -> MIN w <= a <= MAX w -> MIN w <= b <= MAX w ->
  b <> 0 -> ~ (a = MIN w /\ b = -1) ->
  evalExpansion ovf FloorDivSIOpConverter floordivsi
    (i w) (ofSigned w a) (ofSigned w b)
  = if (a =? MIN w + 1) && (b =? -1)
    then option_map (fun _ => ofSigned w (floorQ a b)) (ovf w)
    else Some (ofSigned w (floorQ a b)).
Proof.
  intros Hw Ha Hb Hb0 Hov.
  destruct (Z.eqb_spec a (MIN w + 1)) as [Ea | Ea],
           (Z.eqb_spec b (-1)) as [Eb | Eb]; cbn [andb].
  1: subst a b; apply FloorDivSI_expansion_succ_MIN_minus_one; assumption.
  all: apply FloorDivSI_expansion_safe; trivial; intros [? ?]; contradiction.
Qed.

Lemma FloorDivSI_expansion_any_target_witness :
  (2 <= 8 /\ MIN 8 <= -127 <= MAX 8 /\ MIN 8 <= -1 <= MAX 8 /\
   -1 <> 0 /\ ~ (-127 = MIN 8 /\ -1 = -1)) /\
  evalExpansion (fun _ => None) FloorDivSIOpConverter floordivsi
    (i 8) (ofSigned 8 (-127)) (ofSigned 8 (-1)) = None.
Proof.
  assert (H : 2 <= 8 /\ MIN 8 <= -127 <= MAX 8 /\ MIN 8 <= -1 <= MAX 8 /\
              -1 <> 0 /\ ~ (-127 = MIN 8 /\ -1 = -1))
    by (vm_compute; intuition discriminate).
  split; [ exact H | ].
  destruct H as (H1 & H2 & H3 & H4 & H5).
  exact (FloorDivSI_expansion_any_target (fun _ => None) 8 (-127) (-1)
           H1 H2 H3 H4 H5).
Defined.

Lemma CeilDivSI_expansion_MIN_negative (ovf : Z -> option Z) (w b : Z) :
  2 <= w -> MIN w <= b < -1 ->
  evalExpansion ovf CeilDivSIOpConverter ceildivsi
    (i w) (ofSigned w (MIN w)) (ofSigned w b)
  = Some (ofSigned w (ceilingQ (MIN w) b)).
Proof.
  intros Hw Hb. rewrite ceilingQ_div.
  assert (Hw1 : 1 <= w) by lia.
  signed_constants w.
  unfold evalExpansion, rewriteRoot, ofSigned. cbn.
  sign_tests w.
  destruct (Z.ltb_spec (MIN w) 0), (Z.ltb_spec 0 (MIN w)),
    (Z.ltb_spec b 0), (Z.ltb_spec 0 b); try lia; cbn -[Z.sub Z.add Z.opp].
  repeat (eval_step w; divsi_safe_step w).
  repeat (progress (eval_step w)).
  eval_rest.
  do 4 apply f_equal. apply ceil_neg_neg; lia.
Qed.

Lemma CeilDivSI_expansion_MIN_one (ovf : Z -> option Z) (w : Z) :
  2 <= w ->
  evalExpansion ovf CeilDivSIOpConverter ceildivsi
    (i w) (ofSigned w (MIN w)) (ofSigned w 1)
  = Some (ofSigned w (ceilingQ (MIN w) 1)).
Proof.
  intros Hw. rewrite ceilingQ_div.
  assert (Hw1 : 1 <= w) by lia.
  signed_constants w.
  unfold evalExpansion, rewriteRoot, ofSigned. cbn.
  sign_tests w.
  destruct (Z.ltb_spec (MIN w) 0), (Z.ltb_spec 0 (MIN w));
    try lia; cbn -[Z.sub Z.add Z.opp].
  eval_step w. rewrite wrap_opp_MIN by assumption.
  repeat (eval_step w; divsi_safe_step w).
  repeat (progress (eval_step w)).
  eval_rest.
  do 3 apply f_equal.
  rewrite Z.quot_1_r, Z.div_1_r, Z.opp_involutive.
  apply wrap_opp_MIN; assumption.
Qed.

(** Above [MIN_w] and away from [a = MAX_w, b = -1] no division of the
    ceiling expansion overflows and no negation wraps: the expansion is the
    ceiling on every target. *)
Lemma CeilDivSI_expansion_safe (ovf : Z -> option Z) (w a b : Z) :
  2 <= w -> MIN w < a <= MAX w -> MIN w <= b <= MAX w -> b <> 0 ->
  ~ (a = MAX w /\ b = -1) ->
  evalExpansion ovf CeilDivSIOpConverter ceildivsi
    (i w) (ofSigned w a) (ofSigned w b) = Some (ofSigned w (ceilingQ a b)).
Proof.
  intros Hw Ha Hb Hb0 Hov. rewrite ceilingQ_div.
  assert (Hw1 : 1 <= w) by lia.
  signed_constants w.
  destruct (Z.eq_dec b (-1)) as [Eb | Eb].
  all: unfold evalExpansion, rewriteRoot, ofSigned; cbn.
  all: sign_tests w.
  all: destruct (Z.ltb_spec a 0), (Z.ltb_spec 0 a), (Z.ltb_spec b 0),
         (Z.ltb_spec 0 b); try lia; cbn -[Z.sub Z.add Z.opp].
  all: repeat (eval_step w; divsi_safe_step w).
  all: repeat (progress (eval_step w)).
  all: eval_rest.
  all: do 4 apply f_equal.
  all: rewrite ?Z.sub_0_l.
  all: first [ apply ceil_pos_pos | apply ceil_neg_neg | apply ceil_other_sign ];
    lia.
Qed.

Lemma CeilDivSI_expansion_MAX_minus_one (ovf : Z -> option Z) (w : Z) :
  2 <= w ->
  evalExpansion ovf CeilDivSIOpConverter ceildivsi
    (i w) (ofSigned w (MAX w)) (ofSigned w (-1))
  = option_map (fun _ => ofSigned w (ceilingQ (MAX w) (-1))) (ovf w).
Proof.
  intros Hw. rewrite ceilingQ_div.
  assert (Hw1 : 1 <= w) by lia.
  signed_constants w.
  unfold evalExpansion, rewriteRoot, ofSigned. cbn.
  sign_tests w.
  destruct (Z.ltb_spec (MAX w) 0), (Z.ltb_spec 0 (MAX w));
    try lia; cbn -[Z.sub Z.add Z.opp].
  eval_step w. rewrite wrap_one_plus_MAX by assumption.
  rewrite divsi_overflow by assumption.
  rewrite (divsi_wrap ovf w) by lia.
  destruct (ovf w) as [v | ]; [ | reflexivity ].
  cbn -[Z.sub Z.add Z.opp Z.quot Z.div].
  repeat (progress (eval_step w)).
  eval_rest.
  do 4 apply f_equal. rewrite Z.sub_0_l. apply ceil_other_sign; lia.
Qed.

(** X1.  The signed ceiling-division expansion on any target, for all
    representable [a] and [b <> 0] other than [a = MIN_w, b = -1]: it
    evaluates to the ceiling of [a/b] except in two places.  At [a = MIN_w]
    with [b > 1] it evaluates to the opposite of the ceiling.  At
    [a = MAX_w, b = -1] the operand that the final select does not pick
    divides [MIN_w] by [-1]: the expansion has the ceiling as its value
    exactly when that division has a value on the target. *)
Theorem CeilDivSI_expansion_any_target (ovf : Z -> option Z) (w a b : Z) :
  2 <= w -> MIN w <= a <= MAX w -> MIN w <= b <= MAX w ->
  b <> 0 -> ~ (a = MIN w /\ b = -1) ->
  evalExpansion ovf CeilDivSIOpConverter ceildivsi
    (i w) (ofSigned w a) (ofSigned w b)
  = if (a =? MAX w) && (b =? -1)
    then option_map (fun _ => ofSigned w (ceilingQ a b)) (ovf w)
    else Some (ofSigned w (if (a =? MIN w) && (1 <? b)
                           then - ceilingQ a b else ceilingQ a b)).
Proof.
  intros Hw Ha Hb Hb0 Hov. signed_constants w.
  destruct (Z.eqb_spec a (MAX w)) as [Ea | Ea],
           (Z.eqb_spec b (-1)) as [Eb | Eb]; cbn [andb].
  1: subst a b; apply CeilDivSI_expansion_MAX_minus_one; assumption.
  all: destruct (Z.eqb_spec a (MIN w)) as [Em | Em]; cbn [andb];
    [ | rewrite CeilDivSI_expansion_safe by lia; reflexivity ].
  all: subst a; try lia.
  destruct (Z.ltb_spec 1 b) as [H1 | H1].
  - apply CeilDivSI_expansion_at_MIN; lia.
  - destruct (Z.eq_dec b 1) as [-> | Hb1].
    + apply CeilDivSI_expansion_MIN_one; assumption.
    + apply CeilDivSI_expansion_MIN_negative; lia.
Qed.

Lemma CeilDivSI_expansion_any_target_witness :
  (2 <= 8 /\ MIN 8 <= -128 <= MAX 8 /\ MIN 8 <= 3 <= MAX 8 /\
   3 <> 0 /\ ~ (-128 = MIN 8 /\ 3 = -1)) /\
  evalExpansion (fun _ => None) CeilDivSIOpConverter ceildivsi
    (i 8) (ofSigned 8 (-128)) (ofSigned 8 3)
  = Some (ofSigned 8 (- ceilingQ (-128) 3)).
Proof.
  assert (H : 2 <= 8 /\ MIN 8 <= -128 <= MAX 8 /\ MIN 8 <= 3 <= MAX 8 /\
              3 <> 0 /\ ~ (-128 = MIN 8 /\ 3 = -1))
    by (vm_compute; intuition discriminate).
  split; [ exact H | ].
  destruct H as (H1 & H2 & H3 & H4 & H5).
  exact (CeilDivSI_expansion_any_target (fun _ => None) 8 (-128) 3
           H1 H2 H3 H4 H5).
Defined.

(** The operations that always have a value, as equations. *)
Lemma total_int_ops (ovf : Z -> option Z) w x y :
  evalIntBinary ovf addi w x y = Some (wrap w (x + y)) /\
  evalIntBinary ovf subi w x y = Some (wrap w (x - y)) /\
  evalIntBinary ovf andi w x y = Some (Z.land x y) /\
  evalIntBinary ovf ori w x y = Some (Z.lor x y).
Proof. repeat split. Qed.

Ltac eval_total :=
  repeat (progress
            (rewrite ?(fun o w x y => proj1 (total_int_ops o w x y)),
               ?(fun o w x y => proj1 (proj2 (total_int_ops o w x y))),
               ?(fun o w x y => proj1 (proj2 (proj2 (total_int_ops o w x y)))),
               ?(fun o w x y => proj2 (proj2 (proj2 (total_int_ops o w x y))));
             cbn -[Z.sub Z.add Z.opp Z.quot Z.div Z.land Z.lor])).

(** X3.  With a zero divisor none of the three division expansions has a
    value, whatever the dividend: each one executes its divisions by [b]
    before the final select, so the unsigned ceiling expansion divides by
    zero even for [a = 0], where the select would pick the constant [0]. *)
Theorem division_expansions_zero_divisor (ovf : Z -> option Z) (w a : Z) :
  1 <= w ->
  evalExpansion ovf CeilDivUIOpConverter ceildivui (i w)
    (RScalar (DInt a)) (ofUnsigned w 0) = None /\
  evalExpansion ovf CeilDivSIOpConverter ceildivsi (i w)
    (RScalar (DInt a)) (ofSigned w 0) = None /\
  evalExpansion ovf FloorDivSIOpConverter floordivsi (i w)
    (RScalar (DInt a)) (ofSigned w 0) = None.
Proof.
  intros Hw.
  assert (Hs : forall x, evalIntBinary ovf divsi w x 0 = None).
  { intros x. unfold evalIntBinary. now rewrite signed_0. }
  assert (Hu : forall x, evalIntBinary ovf divui w x 0 = None) by reflexivity.
  unfold evalExpansion, rewriteRoot, ofSigned, ofUnsigned.
  rewrite wrap_0 by assumption.
  repeat split; cbn.
  all: rewrite ?wrap_0 by assumption.
  all: repeat match goal with
         | |- context [evalCmpI ?p ?w ?x ?y] => destruct (evalCmpI p w x y)
         end.
  all: eval_total; rewrite ?Hs, ?Hu; try reflexivity.
  all: eval_total; rewrite ?Hs, ?Hu; reflexivity.
Qed.

Lemma division_expansions_zero_divisor_witness :
  1 <= 32 /\
  evalExpansion (fun _ => Some 0) CeilDivUIOpConverter ceildivui (i 32)
    (RScalar (DInt 0)) (ofUnsigned 32 0) = None.
Proof.
  assert (H : 1 <= 32) by lia.
  split; [ exact H | ].
  exact (proj1 (division_expansions_zero_divisor (fun _ => Some 0) 32 0 H)).
Defined.

(** X4.  Ceiling and floor expansions are dual: for [a] above [MIN_w] and
    away from the overflowing pair, the ceiling expansion of [(a, b)] is the
    opposite of what the floor expansion gives for [(-a, b)]. *)
Theorem CeilDivSI_negates_FloorDivSI (ovf : Z -> option Z) (w a b : Z) :
  2 <= w -> MIN w < a <= MAX w -> MIN w <= b <= MAX w -> b <> 0 ->
  ~ (a = MAX w /\ b = -1) ->
  evalExpansion ovf CeilDivSIOpConverter ceildivsi (i w)
    (ofSigned w a) (ofSigned w b) = Some (ofSigned w (- floorQ (- a) b)) /\
  evalExpansion ovf FloorDivSIOpConverter floordivsi (i w)
    (ofSigned w (- a)) (ofSigned w b) = Some (ofSigned w (floorQ (- a) b)).
Proof.
  intros Hw Ha Hb Hb0 Hov. signed_constants w. split.
  - rewrite CeilDivSI_expansion_safe by assumption.
    now rewrite ceilingQ_div, floorQ_div.
  - apply FloorDivSI_expansion_safe; trivial; lia.
Qed.

Lemma CeilDivSI_negates_FloorDivSI_witness :
  (2 <= 32 /\ MIN 32 < 7 <= MAX 32 /\ MIN 32 <= 2 <= MAX 32 /\ 2 <> 0 /\
   ~ (7 = MAX 32 /\ 2 = -1)) /\
  evalExpansion (fun _ => None) CeilDivSIOpConverter ceildivsi (i 32)
    (ofSigned 32 7) (ofSigned 32 2) = Some (ofSigned 32 (- floorQ (- 7) 2)) /\
  evalExpansion (fun _ => None) FloorDivSIOpConverter floordivsi (i 32)
    (ofSigned 32 (- 7)) (ofSigned 32 2) = Some (ofSigned 32 (floorQ (- 7) 2)).
Proof.
  assert (H : 2 <= 32 /\ MIN 32 < 7 <= MAX 32 /\ MIN 32 <= 2 <= MAX 32 /\
              2 <> 0 /\ ~ (7 = MAX 32 /\ 2 = -1))
    by (vm_compute; intuition discriminate).
  split; [ exact H | ].
  destruct H as (H1 & H2 & H3 & H4 & H5).
  exact (CeilDivSI_negates_FloorDivSI (fun _ => None) 32 7 2 H1 H2 H3 H4 H5).
Defined.

(** X5.  For [a] above [MIN_w] and away from the overflowing pairs, the
    ceiling expansion is the floor expansion when [b] divides [a] and one
    more when it does not. *)
Theorem CeilDivSI_FloorDivSI_gap (ovf : Z -> option Z) (w a b : Z) :
  2 <= w -> MIN w < a <= MAX w -> MIN w <= b <= MAX w -> b <> 0 ->
  ~ (b = -1 /\ (a = MAX w \/ a = MIN w + 1)) ->
  evalExpansion ovf FloorDivSIOpConverter floordivsi (i w)
    (ofSigned w a) (ofSigned w b) = Some (ofSigned w (floorQ a b)) /\
  evalExpansion ovf CeilDivSIOpConverter ceildivsi (i w)
    (ofSigned w a) (ofSigned w b)
  = Some (ofSigned w (floorQ a b + (if a mod b =? 0 then 0 else 1))).
Proof.
  intros Hw Ha Hb Hb0 Hov. signed_constants w. split.
  - apply FloorDivSI_expansion_safe; trivial; lia.
  - rewrite CeilDivSI_expansion_safe by (trivial; lia).
    rewrite ceilingQ_div, floorQ_div. do 2 apply f_equal.
    destruct (Z.eqb_spec (a mod b) 0) as [E | E].
    + rewrite Z_div_zero_opp_full by assumption. lia.
    + rewrite Z_div_nz_opp_full by assumption. lia.
Qed.

Lemma CeilDivSI_FloorDivSI_gap_witness :
  (2 <= 32 /\ MIN 32 < -7 <= MAX 32 /\ MIN 32 <= 2 <= MAX 32 /\ 2 <> 0 /\
   ~ (2 = -1 /\ (-7 = MAX 32 \/ -7 = MIN 32 + 1))) /\
  evalExpansion (fun _ => None) FloorDivSIOpConverter floordivsi (i 32)
    (ofSigned 32 (-7)) (ofSigned 32 2) = Some (ofSigned 32 (floorQ (-7) 2)) /\
  evalExpansion (fun _ => None) CeilDivSIOpConverter ceildivsi (i 32)
    (ofSigned 32 (-7)) (ofSigned 32 2)
  = Some (ofSigned 32 (floorQ (-7) 2 + 1)).
Proof.
  assert (H : 2 <= 32 /\ MIN 32 < -7 <= MAX 32 /\ MIN 32 <= 2 <= MAX 32 /\
              2 <> 0 /\ ~ (2 = -1 /\ (-7 = MAX 32 \/ -7 = MIN 32 + 1)))
    by (vm_compute; intuition discriminate).
  split; [ exact H | ].
  destruct H as (H1 & H2 & H3 & H4 & H5).
  exact (CeilDivSI_FloorDivSI_gap (fun _ => None) 32 (-7) 2 H1 H2 H3 H4 H5).
Defined.

(** X6.  On operands that are non-negative as signed numbers, the signed
    and the unsigned ceiling-division expansions evaluate to the same
    value. *)
Theorem CeilDivSI_agrees_with_CeilDivUI (ovf : Z -> option Z) (w a b : Z) :
  2 <= w -> 0 <= a <= MAX w -> 0 < b <= MAX w ->
  evalExpansion ovf CeilDivSIOpConverter ceildivsi (i w)
    (ofSigned w a) (ofSigned w b)
  = evalExpansion ovf CeilDivUIOpConverter ceildivui (i w)
      (ofUnsigned w a) (ofUnsigned w b).
Proof.
  intros Hw Ha Hb. signed_constants w.
  assert (Hu : MAX w <= UMAX w) by (unfold MAX, UMAX; pow2 w; lia).
  rewrite CeilDivSI_expansion_safe by lia.
  rewrite CeilDivUI_eval by lia. reflexivity.
Qed.

Lemma CeilDivSI_agrees_with_CeilDivUI_witness :
  (2 <= 32 /\ 0 <= 7 <= MAX 32 /\ 0 < 2 <= MAX 32) /\
  evalExpansion (fun _ => None) CeilDivSIOpConverter ceildivsi (i 32)
    (ofSigned 32 7) (ofSigned 32 2)
  = evalExpansion (fun _ => None) CeilDivUIOpConverter ceildivui (i 32)
      (ofUnsigned 32 7) (ofUnsigned 32 2).
Proof.
  assert (H : 2 <= 32 /\ 0 <= 7 <= MAX 32 /\ 0 < 2 <= MAX 32)
    by (vm_compute; intuition discriminate).
  split; [ exact H | ].
  destruct H as (H1 & H2 & H3).
  exact (CeilDivSI_agrees_with_CeilDivUI (fun _ => None) 32 7 2 H1 H2 H3).
Defined.

(* ================================================================== *)
(** * What the min/max expansions compute *)

(** X7.  The signed expansions compute the maximum and the minimum of the
    operands read as signed numbers, the unsigned ones of the operands read
    as unsigned numbers; so their value does not depend on the order of the
    operands. *)
Theorem MaxMinI_expansion_max_min (ovf : Z -> option Z) (w lhs rhs : Z) :
  1 <= w ->
  (MIN w <= lhs <= MAX w -> MIN w <= rhs <= MAX w ->
   evalExpansion ovf (MaxMinIOpConverter maxsi CmpIPredicate.sgt) maxsi (i w)
     (ofSigned w lhs) (ofSigned w rhs) = Some (ofSigned w (Z.max lhs rhs)) /\
   evalExpansion ovf (MaxMinIOpConverter minsi CmpIPredicate.slt) minsi (i w)
     (ofSigned w lhs) (ofSigned w rhs) = Some (ofSigned w (Z.min lhs rhs)) /\
   evalExpansion ovf (MaxMinIOpConverter maxsi CmpIPredicate.sgt) maxsi (i w)
     (ofSigned w rhs) (ofSigned w lhs) = Some (ofSigned w (Z.max lhs rhs)) /\
   evalExpansion ovf (MaxMinIOpConverter minsi CmpIPredicate.slt) minsi (i w)
     (ofSigned w rhs) (ofSigned w lhs) = Some (ofSigned w (Z.min lhs rhs))) /\
  (0 <= lhs <= UMAX w -> 0 <= rhs <= UMAX w ->
   evalExpansion ovf (MaxMinIOpConverter maxui CmpIPredicate.ugt) maxui (i w)
     (ofUnsigned w lhs) (ofUnsigned w rhs) = Some (ofUnsigned w (Z.max lhs rhs)) /\
   evalExpansion ovf (MaxMinIOpConverter minui CmpIPredicate.ult) minui (i w)
     (ofUnsigned w lhs) (ofUnsigned w rhs) = Some (ofUnsigned w (Z.min lhs rhs)) /\
   evalExpansion ovf (MaxMinIOpConverter maxui CmpIPredicate.ugt) maxui (i w)
     (ofUnsigned w rhs) (ofUnsigned w lhs) = Some (ofUnsigned w (Z.max lhs rhs)) /\
   evalExpansion ovf (MaxMinIOpConverter minui CmpIPredicate.ult) minui (i w)
     (ofUnsigned w rhs) (ofUnsigned w lhs) = Some (ofUnsigned w (Z.min lhs rhs))).
Proof.
  intros Hw. unfold ofSigned, ofUnsigned. split; intros Hl Hr.
  - rewrite !MaxMinI_eval, !cmpi_signed by assumption.
    repeat split; do 3 apply f_equal.
    + destruct (Z.ltb_spec rhs lhs); f_equal; lia.
    + destruct (Z.ltb_spec lhs rhs); f_equal; lia.
    + destruct (Z.ltb_spec lhs rhs); f_equal; lia.
    + destruct (Z.ltb_spec rhs lhs); f_equal; lia.
  - rewrite !MaxMinI_eval, !cmpi_unsigned by assumption.
    repeat split; do 3 apply f_equal.
    + destruct (Z.ltb_spec rhs lhs); f_equal; lia.
    + destruct (Z.ltb_spec lhs rhs); f_equal; lia.
    + destruct (Z.ltb_spec lhs rhs); f_equal; lia.
    + destruct (Z.ltb_spec rhs lhs); f_equal; lia.
Qed.

Lemma MaxMinI_expansion_max_min_witness :
  (1 <= 32 /\ 0 <= 4294967295 <= UMAX 32 /\ 0 <= 1 <= UMAX 32) /\
  evalExpansion (fun _ => None) (MaxMinIOpConverter maxui CmpIPredicate.ugt)
    maxui (i 32) (ofUnsigned 32 4294967295) (ofUnsigned 32 1)
  = Some (ofUnsigned 32 4294967295).
Proof.
  assert (H : 1 <= 32 /\ 0 <= 4294967295 <= UMAX 32 /\ 0 <= 1 <= UMAX 32)
    by (vm_compute; intuition discriminate).
  split; [ exact H | ].
  destruct H as (H1 & H2 & H3).
  exact (proj1 (proj2 (MaxMinI_expansion_max_min (fun _ => None) 32
                         4294967295 1 H1) H2 H3)).
Defined.

Lemma cmpi_elements pred w (ls rs : list Z) :
  length ls = length rs ->
  zipWith2 (evalCmpIDatum pred (IntegerType w)) (map DInt ls) (map DInt rs)
  = Some (map boolToI1 (zipWith (evalCmpI pred w) ls rs)).
Proof.
  revert rs.
  induction ls as [ | l ls IH]; intros [ | r rs]; simpl; intros H;
    try discriminate; trivial.
  now rewrite IH by (injection H; trivial).
Qed.

Lemma select_int_elements (cs : list bool) (ts fs : list Z) :
  length cs = length ts -> length ts = length fs ->
  zipWith3 selectDatum (map boolToI1 cs) (map DInt ts) (map DInt fs)
  = Some (map DInt (zipWith pickDatum cs (combine ts fs))).
Proof.
  revert ts fs.
  induction cs as [ | c cs IH]; intros [ | t ts] [ | f fs]; simpl;
    intros H1 H2; try discriminate; trivial.
  rewrite IH by (injection H1; injection H2; trivial).
  simpl. rewrite i1_roundtrip. destruct c; reflexivity.
Qed.

Lemma pick_by_comparison (f : Z -> Z -> bool) (ls rs : list Z) :
  zipWith pickDatum (zipWith f ls rs) (combine ls rs)
  = zipWith (fun l r => if f l r then l else r) ls rs.
Proof.
  revert rs.
  induction ls as [ | l ls IH]; intros [ | r rs]; simpl; trivial.
  now rewrite IH.
Qed.

Lemma MaxMinI_eval_vector ovf OpTy pred w shape (ls rs : list Z) :
  length ls = length rs ->
  evalExpansion ovf (MaxMinIOpConverter OpTy pred) OpTy
    (VectorType shape (IntegerType w))
    (RVector (map DInt ls)) (RVector (map DInt rs))
  = Some (RVector (map DInt
            (zipWith (fun l r => if evalCmpI pred w l r then l else r) ls rs))).
Proof.
  intros Hlen.
  unfold evalExpansion, rewriteRoot. cbn.
  rewrite BinaryOpName_eqb_refl. cbn.
  rewrite cmpi_elements by assumption. cbn.
  rewrite select_int_elements by (rewrite ?zipWith_length; congruence).
  cbn. now rewrite pick_by_comparison.
Qed.

Lemma zipWith_map_Forall {A B} (g : A -> B) (f : B -> B -> B) (h : A -> A -> A)
    (P : A -> Prop) xs ys :
  (forall x y, P x -> P y -> f (g x) (g y) = g (h x y)) ->
  Forall P xs -> Forall P ys ->
  zipWith f (map g xs) (map g ys) = map g (zipWith h xs ys).
Proof.
  intros E Hx. revert ys.
  induction Hx as [ | x xs Px Hxs IH]; intros ys Hy; simpl; trivial.
  destruct Hy as [ | y ys Py Hys]; simpl; trivial.
  now rewrite E, IH.
Qed.

(** X8.  On vectors of integers with as many elements on both sides, the
    four min/max expansions work element by element: the result holds the
    maximum (minimum) of the corresponding elements, read as signed or as
    unsigned numbers. *)
Theorem MaxMinI_expansion_vector (ovf : Z -> option Z) (w : Z)
    (shape : list nat) (lhs rhs : list Z) :
  1 <= w -> length lhs = length rhs ->
  (Forall (fun x => MIN w <= x <= MAX w) lhs ->
   Forall (fun x => MIN w <= x <= MAX w) rhs ->
   evalExpansion ovf (MaxMinIOpConverter maxsi CmpIPredicate.sgt) maxsi
     (VectorType shape (IntegerType w)) (ofSigneds w lhs) (ofSigneds w rhs)
   = Some (ofSigneds w (zipWith Z.max lhs rhs)) /\
   evalExpansion ovf (MaxMinIOpConverter minsi CmpIPredicate.slt) minsi
     (VectorType shape (IntegerType w)) (ofSigneds w lhs) (ofSigneds w rhs)
   = Some (ofSigneds w (zipWith Z.min lhs rhs))) /\
  (Forall (fun x => 0 <= x <= UMAX w) lhs ->
   Forall (fun x => 0 <= x <= UMAX w) rhs ->
   evalExpansion ovf (MaxMinIOpConverter maxui CmpIPredicate.ugt) maxui
     (VectorType shape (IntegerType w)) (ofSigneds w lhs) (ofSigneds w rhs)
   = Some (ofSigneds w (zipWith Z.max lhs rhs)) /\
   evalExpansion ovf (MaxMinIOpConverter minui CmpIPredicate.ult) minui
     (VectorType shape (IntegerType w)) (ofSigneds w lhs) (ofSigneds w rhs)
   = Some (ofSigneds w (zipWith Z.min lhs rhs))).
Proof.
  intros Hw Hlen. unfold ofSigneds.
  rewrite <- !(map_map (wrap w) DInt).
  split; intros Hl Hr.
  - rewrite !MaxMinI_eval_vector by (rewrite !length_map; assumption).
    split; do 3 f_equal;
      apply (zipWith_map_Forall _ _ _ (fun x => MIN w <= x <= MAX w));
      trivial; intros x y Hx Hy; rewrite cmpi_signed by assumption.
    + destruct (Z.ltb_spec y x); f_equal; lia.
    + destruct (Z.ltb_spec x y); f_equal; lia.
  - rewrite !MaxMinI_eval_vector by (rewrite !length_map; assumption).
    split; do 3 f_equal;
      apply (zipWith_map_Forall _ _ _ (fun x => 0 <= x <= UMAX w));
      trivial; intros x y Hx Hy; rewrite cmpi_unsigned by assumption.
    + destruct (Z.ltb_spec y x); f_equal; lia.
    + destruct (Z.ltb_spec x y); f_equal; lia.
Qed.

Lemma MaxMinI_expansion_vector_witness :
  (1 <= 8 /\ length [-1; 5; 3] = length [2; 5; -4] /\
   Forall (fun x => MIN 8 <= x <= MAX 8) [-1; 5; 3] /\
   Forall (fun x => MIN 8 <= x <= MAX 8) [2; 5; -4]) /\
  evalExpansion (fun _ => None) (MaxMinIOpConverter minsi CmpIPredicate.slt)
    minsi (VectorType [3%nat] (IntegerType 8))
    (ofSigneds 8 [-1; 5; 3]) (ofSigneds 8 [2; 5; -4])
  = Some (ofSigneds 8 [-1; 5; -4]).
Proof.
  assert (H : 1 <= 8 /\ length [-1; 5; 3] = length [2; 5; -4] /\
              Forall (fun x => MIN 8 <= x <= MAX 8) [-1; 5; 3] /\
              Forall (fun x => MIN 8 <= x <= MAX 8) [2; 5; -4])
    by (repeat split; repeat constructor; vm_compute; discriminate).
  split; [ exact H | ].
  destruct H as (H1 & H2 & H3 & H4).
  exact (proj2 (proj1 (MaxMinI_expansion_vector (fun _ => None) 8 [3%nat]
                         [-1; 5; 3] [2; 5; -4] H1 H2) H3 H4)).
Defined.

Lemma compareAPFloat_refl x : isNaN x = false -> compareAPFloat x x = Some Eq.
Proof.
  unfold isNaN, compareAPFloat, to_spec_float.
  destruct (data x) as [s | s | s q p | s m e]; try discriminate; intros _.
  - reflexivity.
  - destruct s; reflexivity.
  - simpl. rewrite Z.compare_refl.
    change (Pos.compare_cont Eq m m) with (Pos.compare m m).
    rewrite Pos.compare_refl. destruct s; reflexivity.
Qed.

Lemma compareAPFloat_antisym x y :
  compareAPFloat y x = option_map CompOpp (compareAPFloat x y).
Proof.
  unfold compareAPFloat, to_spec_float.
  destruct (data x) as [s | s | s q p | s m e],
           (data y) as [s' | s' | s' q' p' | s' m' e']; simpl;
    try reflexivity;
    try (destruct s; reflexivity);
    try (destruct s'; reflexivity);
    try (destruct s, s'; reflexivity).
  change (Pos.compare_cont Eq m' m) with (Pos.compare m' m).
  change (Pos.compare_cont Eq m m') with (Pos.compare m m').
  rewrite (Z.compare_antisym e e'), (Pos.compare_antisym m m').
  destruct s, s'; simpl; trivial;
    destruct (e ?= e'); simpl; trivial;
    destruct (m ?= m')%positive; reflexivity.
Qed.

(** X9.  For operands that are not NaN, the float max expansion returns one
    of the two operands, never a NaN, and one that is at least both in the
    IEEE order; the min expansion returns one that is at most both.  When
    the operands do not compare equal, max and min return different
    operands. *)
Theorem MaxMinF_expansion_bounds (ovf : Z -> option Z) (sem : fltSemantics)
    (lhs rhs : APFloat) :
  isNaN lhs = false -> isNaN rhs = false ->
  exists max min,
    evalExpansion ovf (MaxMinFOpConverter maxf CmpFPredicate.OGT) maxf
      (Scalar (FloatType sem)) (ofFloat lhs) (ofFloat rhs) = Some (ofFloat max) /\
    evalExpansion ovf (MaxMinFOpConverter minf CmpFPredicate.OLT) minf
      (Scalar (FloatType sem)) (ofFloat lhs) (ofFloat rhs) = Some (ofFloat min) /\
    (max = lhs \/ max = rhs) /\ (min = lhs \/ min = rhs) /\
    isNaN max = false /\ isNaN min = false /\
    orderedGreaterEqual max lhs = true /\ orderedGreaterEqual max rhs = true /\
    orderedLessEqual min lhs = true /\ orderedLessEqual min rhs = true /\
    (compareAPFloat lhs rhs <> Some Eq ->
       (max = lhs /\ min = rhs) \/ (max = rhs /\ min = lhs)).
Proof.
  intros Hl Hr.
  pose proof (compareAPFloat_refl lhs Hl) as Rl.
  pose proof (compareAPFloat_refl rhs Hr) as Rr.
  pose proof (compareAPFloat_antisym lhs rhs) as A.
  do 2 eexists.
  rewrite !MaxMinF_eval_scalar.
  unfold maxMinF_element. rewrite !unordered_isNaN, Hl, Hr. cbn [orb].
  split; [ reflexivity | split; [ reflexivity | ] ].
  unfold orderedGreaterEqual, orderedLessEqual, evalCmpF.
  pose proof (unordered_isNaN lhs rhs) as U.
  rewrite Hl, Hr in U. unfold evalCmpF in U.
  destruct (compareAPFloat lhs rhs) as [[ | | ] | ] eqn:E;
    [ | | | discriminate U ]; cbn in A |- *;
    rewrite ?Rl, ?Rr, ?A, ?E; cbn; intuition congruence.
Qed.

Lemma MaxMinF_expansion_bounds_witness :
  (isNaN f32_3 = false /\ isNaN f32_2 = false) /\
  exists max min,
    evalExpansion (fun _ => None) (MaxMinFOpConverter maxf CmpFPredicate.OGT)
      maxf (Scalar (FloatType IEEEsingle)) (ofFloat f32_3) (ofFloat f32_2)
    = Some (ofFloat max) /\
    evalExpansion (fun _ => None) (MaxMinFOpConverter minf CmpFPredicate.OLT)
      minf (Scalar (FloatType IEEEsingle)) (ofFloat f32_3) (ofFloat f32_2)
    = Some (ofFloat min) /\
    orderedGreaterEqual max f32_2 = true /\ orderedLessEqual min f32_3 = true.
Proof.
  assert (H : isNaN f32_3 = false /\ isNaN f32_2 = false)
    by (split; reflexivity).
  split; [ exact H | ].
  destruct H as (H1 & H2).
  destruct (MaxMinF_expansion_bounds (fun _ => None) IEEEsingle f32_3 f32_2
              H1 H2)
    as (max & min & Emax & Emin & _ & _ & _ & _ & _ & Gr & Ll & _).
  exists max, min. repeat split; assumption.
Defined.

(* ================================================================== *)
(** * What a pattern does to the rewriter and which operations it creates *)

Lemma fltSemantics_eqb_refl s : fltSemantics_eqb s s = true.
Proof. destruct s; reflexivity. Qed.

Lemma ScalarType_eqb_refl t : ScalarType_eqb t t = true.
Proof.
  destruct t as [w | s]; simpl;
    [ apply Z.eqb_refl | apply fltSemantics_eqb_refl ].
Qed.

Lemma ScalarType_eqb_eq s t : ScalarType_eqb s t = true -> s = t.
Proof.
  destruct s as [w | s], t as [w' | s']; simpl; try discriminate.
  - intros H. apply Z.eqb_eq in H. congruence.
  - destruct s, s'; try discriminate; reflexivity.
Qed.

Lemma Ty_eqb_eq s t : Ty_eqb s t = true -> s = t.
Proof.
  destruct s as [s | shape e], t as [t | shape' e']; simpl; try discriminate.
  - intros H. apply ScalarType_eqb_eq in H. congruence.
  - destruct (list_eq_dec Nat.eq_dec shape shape'); simpl; try discriminate.
    intros H. apply ScalarType_eqb_eq in H. congruence.
Qed.

Ltac split_patterns Hp :=
  simpl in Hp; repeat (destruct Hp as [<- | Hp]); try contradiction.

Ltac split_operation op :=
  let n := fresh "name" in
  let l := fresh "lhs" in
  let r := fresh "rhs" in
  destruct op as [ ? | ? ? ? | ? ? ? | ? ? ? | ? ? | n l r ];
  [ .. | destruct n ].

(** X10.  On a well-typed operation of its root kind, a registered pattern
    run in any rewriter state returns success; the state it leaves holds
    the operations created before followed by the pattern's operations, and
    the replacements recorded before followed by one more: the matched
    operation by the root value.  The operations and the root are those of
    a run from the empty state: they do not depend on what the rewriter
    held. *)
Theorem pattern_appends_to_rewriter p op rw :
  In p (populateArithmeticExpandOpsPatterns []) ->
  getName op = getRootKind p ->
  wellTyped op = true ->
  exists root ops,
    rewriteRoot p op = Some (root, ops) /\
    matchAndRewrite p op rw
    = Some (success,
            mkRewriter (created rw ++ ops) (replaced rw ++ [(op, [root])])).
Proof.
  intros Hp Hk Hty. split_patterns Hp.
  all: split_operation op; try discriminate Hk.
  all: unfold rewriteRoot; cbn.
  all: try (unfold wellTyped in Hty; apply andb_prop in Hty;
            destruct Hty as [_ Hty]; cbn in Hty;
            destruct (getType lhs) as [ [ ? | ? ] | ? [ ? | ? ] ];
            try discriminate Hty; cbn).
  all: do 2 eexists; split; [ reflexivity | ].
  all: rewrite <- ?app_assoc; reflexivity.
Qed.

Lemma pattern_appends_to_rewriter_witness :
  (In (MaxMinFOpConverter maxf CmpFPredicate.OGT)
      (populateArithmeticExpandOpsPatterns []) /\
   getName (matchedOp maxf (VectorType [4%nat] (FloatType IEEEsingle)))
   = getRootKind (MaxMinFOpConverter maxf CmpFPredicate.OGT) /\
   wellTyped (matchedOp maxf (VectorType [4%nat] (FloatType IEEEsingle))) = true) /\
  exists root ops,
    rewriteRoot (MaxMinFOpConverter maxf CmpFPredicate.OGT)
      (matchedOp maxf (VectorType [4%nat] (FloatType IEEEsingle)))
    = Some (root, ops) /\
    matchAndRewrite (MaxMinFOpConverter maxf CmpFPredicate.OGT)
      (matchedOp maxf (VectorType [4%nat] (FloatType IEEEsingle)))
      (mkRewriter [ConstantOp (IntegerAttr (i 1) 1)] [])
    = Some (success,
            mkRewriter
              ([ConstantOp (IntegerAttr (i 1) 1)] ++ ops)
              ([] ++ [(matchedOp maxf (VectorType [4%nat] (FloatType IEEEsingle)),
                       [root])])).
Proof.
  assert (H : In (MaxMinFOpConverter maxf CmpFPredicate.OGT)
                (populateArithmeticExpandOpsPatterns []) /\
              getName (matchedOp maxf (VectorType [4%nat] (FloatType IEEEsingle)))
              = getRootKind (MaxMinFOpConverter maxf CmpFPredicate.OGT) /\
              wellTyped (matchedOp maxf (VectorType [4%nat] (FloatType IEEEsingle)))
              = true)
    by (split; [ simpl; tauto | split; reflexivity ]).
  split; [ exact H | ].
  destruct H as (H1 & H2 & H3).
  exact (pattern_appends_to_rewriter _
           (matchedOp maxf (VectorType [4%nat] (FloatType IEEEsingle)))
           (mkRewriter [ConstantOp (IntegerAttr (i 1) 1)] []) H1 H2 H3).
Defined.

Ltac incl_available :=
  let v := fresh "v" in
  let Hv := fresh "Hv" in
  intros v Hv; simpl in Hv;
  repeat (destruct Hv as [<- | Hv]); try contradiction; find_in.

(** X12.  The operations a registered pattern creates are in an order that
    respects data flow: every operand of a created operation is an operand
    of the matched operation or the result of an operation created before
    it; and the replacement value is the result of the last one created. *)
Theorem created_ops_defined_before_use p op root ops :
  In p (populateArithmeticExpandOpsPatterns []) ->
  rewriteRoot p op = Some (root, ops) ->
  definedBeforeUse (getOperands op) ops /\
  root = OpResult (last ops op).
Proof.
  intros Hp H.
  invert_rewrite Hp H.
  all: split; [ | reflexivity ].
  all: cbn [definedBeforeUse getOperands]; repeat split; incl_available.
Qed.

Lemma created_ops_defined_before_use_witness :
  exists root ops,
    In CeilDivUIOpConverter (populateArithmeticExpandOpsPatterns []) /\
    rewriteRoot CeilDivUIOpConverter (matchedOp ceildivui (i 32))
    = Some (root, ops) /\
    definedBeforeUse (getOperands (matchedOp ceildivui (i 32))) ops /\
    root = OpResult (last ops (matchedOp ceildivui (i 32))).
Proof.
  assert (Hin : In CeilDivUIOpConverter (populateArithmeticExpandOpsPatterns []))
    by (simpl; tauto).
  do 2 eexists. split; [ exact Hin | ]. split; [ reflexivity | ].
  exact (created_ops_defined_before_use _ (matchedOp ceildivui (i 32)) _ _
           Hin eq_refl).
Defined.


(** X14.  When the matched operation is well typed (operands of one type,
    of integers for an integer operation and of floats for a float one),
    every operation a registered pattern creates is well typed: operands of
    binary operations and comparisons have one type, each select has an
    [i1] condition in the shape of its operands and operands of one type,
    and the broadcast takes a scalar of the vector's element type. *)
Theorem created_ops_well_typed p op root ops :
  In p (populateArithmeticExpandOpsPatterns []) ->
  wellTyped op = true ->
  rewriteRoot p op = Some (root, ops) ->
  Forall (fun o => verifyOp o = true) ops.
Proof.
  intros Hp Hty H.
  invert_rewrite Hp H.
  all: unfold wellTyped in Hty; apply andb_prop in Hty;
    destruct Hty as [Hlr Hty]; apply Ty_eqb_eq in Hlr;
    rewrite Etype in Hlr; cbn in Hty; rewrite ?Etype in Hty; cbn in Hty;
    try discriminate Hty.
  all: repeat constructor; cbn; rewrite <- ?Hlr, ?Etype; cbn;
    rewrite ?Z.eqb_refl, ?ScalarType_eqb_refl, ?fltSemantics_eqb_refl; cbn;
    repeat match goal with
           | |- context [list_eq_dec ?d ?s ?s] =>
               destruct (list_eq_dec d s s); [ | contradiction ]
           end; reflexivity.
Qed.

Lemma created_ops_well_typed_witness :
  exists root ops,
    In (MaxMinFOpConverter maxf CmpFPredicate.OGT)
       (populateArithmeticExpandOpsPatterns []) /\
    wellTyped (matchedOp maxf (VectorType [4%nat] (FloatType IEEEsingle))) = true /\
    rewriteRoot (MaxMinFOpConverter maxf CmpFPredicate.OGT)
      (matchedOp maxf (VectorType [4%nat] (FloatType IEEEsingle)))
    = Some (root, ops) /\
    Forall (fun o => verifyOp o = true) ops.
Proof.
  assert (Hin : In (MaxMinFOpConverter maxf CmpFPredicate.OGT)
                  (populateArithmeticExpandOpsPatterns []))
    by (simpl; tauto).
  do 2 eexists. split; [ exact Hin | ]. split; [ reflexivity | ].
  split; [ reflexivity | ].
  exact (created_ops_well_typed _
           (matchedOp maxf (VectorType [4%nat] (FloatType IEEEsingle))) _ _
           Hin eq_refl eq_refl).
Defined.
